(** * The catalog ingestion engine: [LocationReaders]

    A shallow embedding of
    [plugins/catalog-backend/src/ingestion/LocationReaders.ts]: the bounded,
    round-based expansion loop of [read], the four per-variant handlers and
    the admission gate applied to produced entities.

    Conventions of the embedding.
    - An [async] hook is awaited to completion before the engine goes on, so
      a hook is a function from the state of the processors' world to its
      run: the items it passed to [emit] (in order), its outcome (a value or
      a thrown error) and the world it leaves.  Hooks are assumed to settle.
    - A thrown value is an [Error] object; the template literal [${e}] is
      [Error.prototype.toString].
    - The logger and the order of every interaction are kept in a trace of
      events carried by the engine state; the markers for rounds, dispatched
      items, hook calls, emits, output pushes and the items dropped at the
      bound are instrumentation. *)

From Stdlib Require Import List String Ascii Bool Arith Lia.
From Stdlib Require Import Strings.Byte.
From Stdlib Require Import DecimalString.
Import ListNotations.
Local Open Scope string_scope.
Local Open Scope list_scope.

Set Implicit Arguments.

(* ================================================================== *)
(** ** Data model *)

(** [LocationSpec] of the catalog model. *)
Record LocationSpec := { type : string; target : string }.

(** [Entity]: the engine reads [apiVersion] and [kind] only; the rest of the
    record is carried along untouched. *)
Record Entity := {
  apiVersion : string;
  kind : string;
  fields : list (string * string)
}.

(** A JavaScript [Error] object: its class name and its message. *)
Record JsError := { err_name : string; err_message : string }.

(** [new Error(message)]. *)
Definition Error (message : string) : JsError :=
  {| err_name := "Error"; err_message := message |}.

(** [Error.prototype.toString], the rendering used by [${e}]. *)
Definition toString (e : JsError) : string :=
  if String.eqb (err_name e) "" then err_message e
  else if String.eqb (err_message e) "" then err_name e
  else String.append (err_name e) (String.append ": " (err_message e)).

(** [LocationProcessorResult]: the tagged union of work items. *)
Inductive LocationProcessorResult :=
| LocationResult (location : LocationSpec) (optional : bool)
| DataResult (location : LocationSpec) (data : list byte)
| EntityResult (location : LocationSpec) (entity : Entity)
| ErrorResult (location : LocationSpec) (error : JsError).

Definition item_location (item : LocationProcessorResult) : LocationSpec :=
  match item with
  | LocationResult l _ | DataResult l _ | EntityResult l _ | ErrorResult l _ => l
  end.

Module result.
(** [result.location(newLocation, optional)]. *)
Definition location (newLocation : LocationSpec) (optional : bool) :=
  LocationResult newLocation optional.

(** Modelled from the spec: [./processors/results] is not among the
    sources.  The unhandled-input error of the taxonomy: an [ErrorResult]
    at the location whose error is an [InputError] with the message. *)
Definition inputError (atLocation : LocationSpec) (message : string) :=
  ErrorResult atLocation
    {| err_name := "InputError"; err_message := message |}.

(** Modelled from the spec: [./processors/results] is not among the
    sources.  The processor-fault error of the taxonomy: an [ErrorResult]
    at the location whose error is a plain [Error] with the message. *)
Definition generalError (atLocation : LocationSpec) (message : string) :=
  ErrorResult atLocation (Error message).
End result.

(** The two lists of [ReadLocationResult]. *)
Record EntityEntry := { ee_entity : Entity; ee_location : LocationSpec }.
Record ErrorEntry := { er_location : LocationSpec; er_error : JsError }.
Record ReadLocationResult := {
  entities : list EntityEntry;
  errors : list ErrorEntry
}.

(** The max amount of nesting depth of generated work items. *)
Definition MAX_DEPTH : nat := 10.

(** Template literals. *)
Definition template (parts : list string) : string := String.concat "" parts.
Definition bool_str (b : bool) : string := if b then "true" else "false".
Definition nat_str (n : nat) : string := NilZero.string_of_uint (Nat.to_uint n).
Arguments template : simpl never.
Arguments nat_str : simpl never.

(* ================================================================== *)
(** ** Events *)

Inductive Level := LDebug | LWarn.

(** What a hook was called with, and how the call ended. *)
Inductive Call :=
| CReadLocation (location : LocationSpec) (optional : bool)
| CParseData (data : list byte) (location : LocationSpec)
| CProcessEntity (entity : Entity) (location : LocationSpec)
| CHandleError (error : JsError) (location : LocationSpec).

Inductive Outcome :=
| RetBool (b : bool)
| RetEntity (e : Entity)
| RetVoid
| Threw (e : JsError).

(** The source of an [emit]: the engine itself, or the hook of the processor
    at an index of the chain. *)
Inductive Emitter := ByEngine | ByProcessor (idx : nat).

Inductive Event :=
| EvLog (level : Level) (message : string)
| EvRound (depth : nat) (items : list LocationProcessorResult)
| EvDiscard (items : list LocationProcessorResult)
| EvItem (item : LocationProcessorResult)
| EvHook (idx : nat) (call : Call) (out : Outcome)
| EvEmit (by_ : Emitter) (item : LocationProcessorResult)
| EvEntity (entry : EntityEntry)
| EvError (entry : ErrorEntry).

(** *** Reading a trace *)

(** A hook call: the index of the processor, the call and its outcome. *)
Definition HookCall := (nat * Call * Outcome)%type.
Definition call_idx (c : HookCall) : nat := fst (fst c).
Definition call_of (c : HookCall) : Call := snd (fst c).
Definition call_out (c : HookCall) : Outcome := snd c.

Definition hook_calls (tr : list Event) : list HookCall :=
  flat_map (fun ev => match ev with EvHook i c o => [(i, c, o)] | _ => [] end) tr.

(** Everything passed to [emit], and what the engine itself emitted. *)
Definition emits (tr : list Event) : list LocationProcessorResult :=
  flat_map (fun ev => match ev with EvEmit _ i => [i] | _ => [] end) tr.

Definition engine_emits (tr : list Event) : list LocationProcessorResult :=
  flat_map (fun ev => match ev with EvEmit ByEngine i => [i] | _ => [] end) tr.

Definition dispatched (tr : list Event) : list LocationProcessorResult :=
  flat_map (fun ev => match ev with EvItem i => [i] | _ => [] end) tr.

Definition pushed_entities (tr : list Event) : list EntityEntry :=
  flat_map (fun ev => match ev with EvEntity e => [e] | _ => [] end) tr.

Definition pushed_errors (tr : list Event) : list ErrorEntry :=
  flat_map (fun ev => match ev with EvError e => [e] | _ => [] end) tr.

Definition warnings (tr : list Event) : list string :=
  flat_map (fun ev => match ev with EvLog LWarn m => [m] | _ => [] end) tr.

Definition discarded (tr : list Event) : list (list LocationProcessorResult) :=
  flat_map (fun ev => match ev with EvDiscard l => [l] | _ => [] end) tr.

(** The events up to the first one that [stop] holds of. *)
Fixpoint upto (stop : Event -> bool) (tr : list Event) : list Event :=
  match tr with
  | [] => []
  | ev :: tr' => if stop ev then [] else ev :: upto stop tr'
  end.

Definition round_mark (ev : Event) : bool :=
  match ev with EvRound _ _ | EvDiscard _ => true | _ => false end.

Definition item_mark (ev : Event) : bool :=
  match ev with EvItem _ | EvRound _ _ | EvDiscard _ => true | _ => false end.

(** The rounds of a trace: the depth, the pending set and the events of each
    iteration of the loop of [read]. *)
Definition Round := (nat * list LocationProcessorResult * list Event)%type.

Fixpoint rounds_of (tr : list Event) : list Round :=
  match tr with
  | [] => []
  | EvRound d items :: tr' => (d, items, upto round_mark tr') :: rounds_of tr'
  | _ :: tr' => rounds_of tr'
  end.

(** The items dispatched in a trace, each with the events of its handling. *)
Fixpoint item_runs (tr : list Event)
    : list (LocationProcessorResult * list Event) :=
  match tr with
  | [] => []
  | EvItem i :: tr' => (i, upto item_mark tr') :: item_runs tr'
  | _ :: tr' => item_runs tr'
  end.

(* ================================================================== *)
(** ** Processors, events and the engine state *)

Section Engine.

Context {W : Type}.

(** The run of one awaited hook. *)
Record HookRun (A : Type) := {
  emitted : list LocationProcessorResult;
  outcome : A + JsError;
  world' : W
}.

Definition Hook (A : Type) := W -> HookRun A.

(** [LocationProcessor]: each of the four hooks is optional; [name] is
    [processor.constructor.name]. *)
Record LocationProcessor := {
  name : string;
  readLocation : option (LocationSpec -> bool -> Hook bool);
  parseData : option (list byte -> LocationSpec -> Hook bool);
  processEntity : option (Entity -> LocationSpec -> Hook Entity);
  handleError : option (JsError -> LocationSpec -> Hook unit)
}.

(** Modelled from the spec: [./CatalogRules] is not among the sources.  The
    rules enforcer is its contract [isAllowed(entity, location) -> bool]. *)
Record CatalogRulesEnforcer := {
  isAllowed : Entity -> LocationSpec -> bool
}.

(** The fields of the class (the logger is the trace). *)
Record LocationReaders := {
  processors : list LocationProcessor;
  rulesEnforcer : CatalogRulesEnforcer
}.

(** The state [read] works on: the processors' world, the local [output],
    the array [newItems] the current [emit] pushes to, and the trace. *)
Record State := {
  world : W;
  output : ReadLocationResult;
  newItems : list LocationProcessorResult;
  trace : list Event
}.

(** A computation of the engine either completes with a value or raises. *)
Inductive Completion (A : Type) :=
| Normal (a : A)
| Raised (e : JsError).
Arguments Raised {A} e.

Definition M (A : Type) := State -> Completion A * State.

Definition ret {A} (a : A) : M A := fun st => (Normal a, st).

Definition bind {A B} (m : M A) (k : A -> M B) : M B :=
  fun st =>
    match m st with
    | (Normal a, st') => k a st'
    | (Raised e, st') => (Raised e, st')
    end.

(** [try { m } catch (e) { h e }]: the state changes of [m] stay. *)
Definition try_catch {A} (m : M A) (h : JsError -> M A) : M A :=
  fun st =>
    match m st with
    | (Normal a, st') => (Normal a, st')
    | (Raised e, st') => h e st'
    end.

Notation "x <- m ;; k" := (bind m (fun x => k))
  (at level 61, m at next level, right associativity).
Notation "m ;; k" := (bind m (fun _ => k))
  (at level 61, right associativity).

Definition mark (ev : list Event) : M unit :=
  fun st => (Normal tt,
             {| world := world st; output := output st;
                newItems := newItems st; trace := trace st ++ ev |}).

(** [this.logger.debug(message)], [this.logger.warn(message)]. *)
Definition logger_debug (message : string) : M unit := mark [EvLog LDebug message].
Definition logger_warn (message : string) : M unit := mark [EvLog LWarn message].

(** [emit], as the engine calls it: [newItems.push(i)]. *)
Definition emit (i : LocationProcessorResult) : M unit :=
  fun st => (Normal tt,
             {| world := world st; output := output st;
                newItems := newItems st ++ [i];
                trace := trace st ++ [EvEmit ByEngine i] |}).

(** [output.entities.push(entry)], [output.errors.push(entry)]. *)
Definition push_entity (entry : EntityEntry) : M unit :=
  fun st => (Normal tt,
             {| world := world st;
                output := {| entities := entities (output st) ++ [entry];
                             errors := errors (output st) |};
                newItems := newItems st; trace := trace st ++ [EvEntity entry] |}).

Definition push_error (entry : ErrorEntry) : M unit :=
  fun st => (Normal tt,
             {| world := world st;
                output := {| entities := entities (output st);
                             errors := errors (output st) ++ [entry] |};
                newItems := newItems st; trace := trace st ++ [EvError entry] |}).

(** [const output = { entities: [], errors: [] }]. *)
Definition fresh_output : M unit :=
  fun st => (Normal tt,
             {| world := world st;
                output := {| entities := []; errors := [] |};
                newItems := newItems st; trace := trace st |}).

(** [const newItems = []]. *)
Definition fresh_newItems : M unit :=
  fun st => (Normal tt,
             {| world := world st; output := output st;
                newItems := []; trace := trace st |}).

Definition get_newItems : M (list LocationProcessorResult) :=
  fun st => (Normal (newItems st), st).

Definition get_output : M ReadLocationResult :=
  fun st => (Normal (output st), st).

(** [await processor.hook(..., emit)]: the hook runs on the current world;
    its emits are pushed to [newItems] in order; it returns or throws. *)
Definition await {A} (idx : nat) (call : Call) (out : A -> Outcome)
    (h : Hook A) : M A :=
  fun st =>
    let r := h (world st) in
    let o := match outcome r with inl a => out a | inr e => Threw e end in
    let st' := {| world := world' r; output := output st;
                  newItems := newItems st ++ emitted r;
                  trace := trace st ++ EvHook idx call o
                             :: map (EvEmit (ByProcessor idx)) (emitted r) |} in
    match outcome r with
    | inl a => (Normal a, st')
    | inr e => (Raised e, st')
    end.

(** The chain with the registration index of each processor. *)
Definition indexed (ps : list LocationProcessor) : list (nat * LocationProcessor) :=
  combine (seq 0 (List.length ps)) ps.

(** *** Observing a computation *)

Definition completion {A} (m : M A) (st : State) : Completion A := fst (m st).
Definition after {A} (m : M A) (st : State) : State := snd (m st).

(** The events a computation adds to the trace. *)
Definition events {A} (m : M A) (st : State) : list Event :=
  skipn (List.length (trace st)) (trace (after m st)).

(** The processors of a chain that have a hook, by registration index. *)
Definition has_readLocation (p : LocationProcessor) : bool :=
  match readLocation p with Some _ => true | None => false end.
Definition has_parseData (p : LocationProcessor) : bool :=
  match parseData p with Some _ => true | None => false end.
Definition has_processEntity (p : LocationProcessor) : bool :=
  match processEntity p with Some _ => true | None => false end.
Definition has_handleError (p : LocationProcessor) : bool :=
  match handleError p with Some _ => true | None => false end.

Definition capable_of (has : LocationProcessor -> bool)
    (ps : list (nat * LocationProcessor)) : list nat :=
  map fst (filter (fun ip => has (snd ip)) ps).

Definition capable (has : LocationProcessor -> bool)
    (ps : list LocationProcessor) : list nat :=
  capable_of has (indexed ps).

(** [processor.constructor.name] of the processor at an index. *)
Definition name_at (ps : list LocationProcessor) (idx : nat) : string :=
  match nth_error ps idx with Some p => name p | None => "" end.

(* ================================================================== *)
(** ** The handlers *)

(** The loop of [handleLocation] over the remaining processors, with the
    code after the loop at its end. *)
Fixpoint handleLocation_loop (ps : list (nat * LocationProcessor))
    (location : LocationSpec) (optional : bool) : M unit :=
  match ps with
  | [] =>
      let message := template ["No processor was able to read location ";
                               type location; " "; target location] in
      emit (result.inputError location message)
  | (idx, processor) :: rest =>
      match readLocation processor with
      | Some hook =>
          handled <- try_catch
            (await idx (CReadLocation location optional) RetBool
                   (hook location optional))
            (fun e =>
               let message := template ["Processor "; name processor;
                 " threw an error while reading location ";
                 type location; " "; target location; ", "; toString e] in
               emit (result.generalError location message) ;;
               ret false) ;;
          if handled then ret tt
          else handleLocation_loop rest location optional
      | None => handleLocation_loop rest location optional
      end
  end.

Definition handleLocation (this : LocationReaders)
    (location : LocationSpec) (optional : bool) : M unit :=
  logger_debug (template ["Reading location "; type location; " ";
                          target location; " optional="; bool_str optional]) ;;
  handleLocation_loop (indexed (processors this)) location optional.

Fixpoint handleData_loop (ps : list (nat * LocationProcessor))
    (location : LocationSpec) (data : list byte) : M unit :=
  match ps with
  | [] =>
      let message := template ["No processor was able to parse location ";
                               type location; " "; target location] in
      emit (result.inputError location message)
  | (idx, processor) :: rest =>
      match parseData processor with
      | Some hook =>
          handled <- try_catch
            (await idx (CParseData data location) RetBool (hook data location))
            (fun e =>
               let message := template ["Processor "; name processor;
                 " threw an error while parsing ";
                 type location; " "; target location; ", "; toString e] in
               emit (result.generalError location message) ;;
               ret false) ;;
          if handled then ret tt
          else handleData_loop rest location data
      | None => handleData_loop rest location data
      end
  end.

Definition handleData (this : LocationReaders)
    (location : LocationSpec) (data : list byte) : M unit :=
  logger_debug (template ["Parsing data from location "; type location; " ";
                          target location; " ("; nat_str (List.length data);
                          " bytes)"]) ;;
  handleData_loop (indexed (processors this)) location data.

(** The loop of [handleEntity]; [current] is the local of that name. *)
Fixpoint handleEntity_loop (ps : list (nat * LocationProcessor))
    (location : LocationSpec) (current : Entity) : M Entity :=
  match ps with
  | [] => ret current
  | (idx, processor) :: rest =>
      match processEntity processor with
      | Some hook =>
          current' <- try_catch
            (await idx (CProcessEntity current location) RetEntity
                   (hook current location))
            (fun e =>
               let message := template ["Processor "; name processor;
                 " threw an error while processing entity at ";
                 type location; " "; target location; ", "; toString e] in
               emit (result.generalError location message) ;;
               ret current) ;;
          handleEntity_loop rest location current'
      | None => handleEntity_loop rest location current
      end
  end.

Definition handleEntity (this : LocationReaders)
    (location : LocationSpec) (entity : Entity) : M Entity :=
  logger_debug (template ["Got entity at location "; type location; " ";
                          target location; ", "; apiVersion entity; " ";
                          kind entity]) ;;
  handleEntity_loop (indexed (processors this)) location entity.

Fixpoint handleError_loop (ps : list (nat * LocationProcessor))
    (location : LocationSpec) (error : JsError) : M unit :=
  match ps with
  | [] => ret tt
  | (idx, processor) :: rest =>
      match handleError processor with
      | Some hook =>
          try_catch
            (await idx (CHandleError error location) (fun _ => RetVoid)
                   (hook error location))
            (fun e =>
               let message := template ["Processor "; name processor;
                 " threw an error while handling another error at ";
                 type location; " "; target location; ", "; toString e] in
               emit (result.generalError location message)) ;;
          handleError_loop rest location error
      | None => handleError_loop rest location error
      end
  end.

(** The method [handleError] of the class; the hook of that name is the
    field of [LocationProcessor]. *)
Definition handleError_ (this : LocationReaders)
    (location : LocationSpec) (error : JsError) : M unit :=
  logger_debug (template ["Encountered error at location "; type location;
                          " "; target location; ", "; toString error]) ;;
  handleError_loop (indexed (processors this)) location error.

(* ================================================================== *)
(** ** [read] *)

(** The body of [for (const item of items)]. *)
Definition process_item (this : LocationReaders)
    (item : LocationProcessorResult) : M unit :=
  mark [EvItem item] ;;
  match item with
  | LocationResult location optional => handleLocation this location optional
  | DataResult location data => handleData this location data
  | EntityResult location entity =>
      if isAllowed (rulesEnforcer this) entity location then
        entity' <- handleEntity this location entity ;;
        push_entity {| ee_entity := entity'; ee_location := location |}
      else
        push_error
          {| er_location := location;
             er_error := Error (template ["Entity of kind "; kind entity;
                 " is not allowed from location "; target location; ":";
                 type location]) |}
  | ErrorResult location error =>
      handleError_ this location error ;;
      push_error {| er_location := location; er_error := error |}
  end.

Fixpoint for_each (this : LocationReaders)
    (items : list LocationProcessorResult) : M unit :=
  match items with
  | [] => ret tt
  | item :: rest => process_item this item ;; for_each this rest
  end.

(** The loop [for (let depth = 0; depth < MAX_DEPTH; ++depth)] with [remaining]
    iterations to go, and the code after the loop once none is left. *)
Fixpoint read_loop (this : LocationReaders) (location : LocationSpec)
    (remaining depth : nat) (items : list LocationProcessorResult)
    : M ReadLocationResult :=
  match remaining with
  | O =>
      let message := template ["Max recursion depth "; nat_str MAX_DEPTH;
                               " reached for "; type location; " ";
                               target location] in
      mark [EvDiscard items] ;;
      logger_warn message ;;
      push_error {| er_location := location; er_error := Error message |} ;;
      get_output
  | S remaining' =>
      fresh_newItems ;;
      mark [EvRound depth items] ;;
      for_each this items ;;
      newItems <- get_newItems ;;
      if Nat.eqb (List.length newItems) 0 then get_output
      else read_loop this location remaining' (S depth) newItems
  end.

Definition read (this : LocationReaders) (location : LocationSpec)
    : M ReadLocationResult :=
  fresh_output ;;
  read_loop this location MAX_DEPTH 0 [result.location location false].

(** A call of [read]: its locals start empty. *)
Definition initial (w : W) : State :=
  {| world := w; output := {| entities := []; errors := [] |};
     newItems := []; trace := [] |}.

Definition run_read (this : LocationReaders) (location : LocationSpec) (w : W)
    : Completion ReadLocationResult * State :=
  read this location (initial w).

End Engine.

(* ================================================================== *)
(** ** The messages of the engine *)

Definition msg_unreadable (location : LocationSpec) : string :=
  template ["No processor was able to read location ";
            type location; " "; target location].

Definition msg_unparsable (location : LocationSpec) : string :=
  template ["No processor was able to parse location ";
            type location; " "; target location].

Definition msg_read_fault (location : LocationSpec) (pname : string)
    (e : JsError) : string :=
  template ["Processor "; pname; " threw an error while reading location ";
            type location; " "; target location; ", "; toString e].

Definition msg_parse_fault (location : LocationSpec) (pname : string)
    (e : JsError) : string :=
  template ["Processor "; pname; " threw an error while parsing ";
            type location; " "; target location; ", "; toString e].

Definition msg_entity_fault (location : LocationSpec) (pname : string)
    (e : JsError) : string :=
  template ["Processor "; pname; " threw an error while processing entity at ";
            type location; " "; target location; ", "; toString e].

Definition msg_error_fault (location : LocationSpec) (pname : string)
    (e : JsError) : string :=
  template ["Processor "; pname;
            " threw an error while handling another error at ";
            type location; " "; target location; ", "; toString e].

Definition msg_policy (entity : Entity) (location : LocationSpec) : string :=
  template ["Entity of kind "; kind entity; " is not allowed from location ";
            target location; ":"; type location].

Definition msg_limit (location : LocationSpec) : string :=
  template ["Max recursion depth "; nat_str MAX_DEPTH; " reached for ";
            type location; " "; target location].

(** The entry of the policy rejection of an entity, and of the bound. *)
Definition policy_entry (entity : Entity) (location : LocationSpec) : ErrorEntry :=
  {| er_location := location; er_error := Error (msg_policy entity location) |}.

Definition limit_entry (location : LocationSpec) : ErrorEntry :=
  {| er_location := location; er_error := Error (msg_limit location) |}.

(** The entity a pipeline ends with, read off its calls: a call that returns
    replaces the current entity, a call that throws leaves it. *)
Definition apply_call (current : Entity) (c : HookCall) : Entity :=
  match call_out c with RetEntity e => e | _ => current end.

Definition pipeline_result (entity : Entity) (calls : list HookCall) : Entity :=
  fold_left apply_call calls entity.

(* ================================================================== *)
(** ** The shape of the traces *)

Section Shapes.

Context {W : Type}.

#[local] Abbreviation Item := LocationProcessorResult.
#[local] Abbreviation Chain := (list (nat * @LocationProcessor W)).

(** A first-match chain ([readLocation], [parseData]) over the processors
    left, each hook run on some world: it ends at the first call that returns
    [true], or with the unhandled-input error once the chain is exhausted. *)
Inductive FirstMatch (hook_of : @LocationProcessor W -> option (@Hook W bool))
    (call : Call) (fault : string -> JsError -> string)
    (location : LocationSpec) (unhandled : string)
    : Chain -> list Event -> Prop :=
| FM_exhausted :
    FirstMatch hook_of call fault location unhandled []
      [EvEmit ByEngine (result.inputError location unhandled)]
| FM_skip i p rest ev :
    hook_of p = None ->
    FirstMatch hook_of call fault location unhandled rest ev ->
    FirstMatch hook_of call fault location unhandled ((i, p) :: rest) ev
| FM_handled i p rest h w :
    hook_of p = Some h ->
    outcome (h w) = inl true ->
    FirstMatch hook_of call fault location unhandled ((i, p) :: rest)
      (EvHook i call (RetBool true)
         :: map (EvEmit (ByProcessor i)) (emitted (h w)))
| FM_declined i p rest h w ev :
    hook_of p = Some h ->
    outcome (h w) = inl false ->
    FirstMatch hook_of call fault location unhandled rest ev ->
    FirstMatch hook_of call fault location unhandled ((i, p) :: rest)
      (EvHook i call (RetBool false)
         :: map (EvEmit (ByProcessor i)) (emitted (h w)) ++ ev)
| FM_threw i p rest h w e ev :
    hook_of p = Some h ->
    outcome (h w) = inr e ->
    FirstMatch hook_of call fault location unhandled rest ev ->
    FirstMatch hook_of call fault location unhandled ((i, p) :: rest)
      (EvHook i call (Threw e)
         :: map (EvEmit (ByProcessor i)) (emitted (h w))
         ++ EvEmit ByEngine (result.generalError location (fault (name p) e))
         :: ev).

(** The pipeline of [processEntity] from a current entity to a final one. *)
Inductive Pipeline (location : LocationSpec)
    : Chain -> Entity -> list Event -> Entity -> Prop :=
| PL_done cur : Pipeline location [] cur [] cur
| PL_skip i p rest cur ev fin :
    processEntity p = None ->
    Pipeline location rest cur ev fin ->
    Pipeline location ((i, p) :: rest) cur ev fin
| PL_step i p rest cur h w e' ev fin :
    processEntity p = Some h ->
    outcome (h cur location w) = inl e' ->
    Pipeline location rest e' ev fin ->
    Pipeline location ((i, p) :: rest) cur
      (EvHook i (CProcessEntity cur location) (RetEntity e')
         :: map (EvEmit (ByProcessor i)) (emitted (h cur location w)) ++ ev)
      fin
| PL_threw i p rest cur h w e ev fin :
    processEntity p = Some h ->
    outcome (h cur location w) = inr e ->
    Pipeline location rest cur ev fin ->
    Pipeline location ((i, p) :: rest) cur
      (EvHook i (CProcessEntity cur location) (Threw e)
         :: map (EvEmit (ByProcessor i)) (emitted (h cur location w))
         ++ EvEmit ByEngine
              (result.generalError location
                 (msg_entity_fault location (name p) e))
         :: ev) fin.

(** The calls of [handleError] over the chain. *)
Inductive Notify (location : LocationSpec) (error : JsError)
    : Chain -> list Event -> Prop :=
| NT_done : Notify location error [] []
| NT_skip i p rest ev :
    handleError p = None ->
    Notify location error rest ev ->
    Notify location error ((i, p) :: rest) ev
| NT_step i p rest h w ev :
    handleError p = Some h ->
    outcome (h error location w) = inl tt ->
    Notify location error rest ev ->
    Notify location error ((i, p) :: rest)
      (EvHook i (CHandleError error location) RetVoid
         :: map (EvEmit (ByProcessor i)) (emitted (h error location w)) ++ ev)
| NT_threw i p rest h w e ev :
    handleError p = Some h ->
    outcome (h error location w) = inr e ->
    Notify location error rest ev ->
    Notify location error ((i, p) :: rest)
      (EvHook i (CHandleError error location) (Threw e)
         :: map (EvEmit (ByProcessor i)) (emitted (h error location w))
         ++ EvEmit ByEngine
              (result.generalError location
                 (msg_error_fault location (name p) e))
         :: ev).

(** The hook of a first-match chain, applied to the item. *)
Definition reader_of (location : LocationSpec) (optional : bool)
    (p : @LocationProcessor W) : option (@Hook W bool) :=
  option_map (fun f => f location optional) (readLocation p).

Definition parser_of (data : list byte) (location : LocationSpec)
    (p : @LocationProcessor W) : option (@Hook W bool) :=
  option_map (fun f => f data location) (parseData p).

(** The events of the handling of one item, after its [EvItem]. *)
Inductive ItemEvents (this : @LocationReaders W) : Item -> list Event -> Prop :=
| IE_location location optional ev :
    FirstMatch (reader_of location optional)
      (CReadLocation location optional)
      (msg_read_fault location) location (msg_unreadable location)
      (indexed (processors this)) ev ->
    ItemEvents this (LocationResult location optional)
      (EvLog LDebug
         (template ["Reading location "; type location; " "; target location;
                    " optional="; bool_str optional]) :: ev)
| IE_data location data ev :
    FirstMatch (parser_of data location) (CParseData data location)
      (msg_parse_fault location) location (msg_unparsable location)
      (indexed (processors this)) ev ->
    ItemEvents this (DataResult location data)
      (EvLog LDebug
         (template ["Parsing data from location "; type location; " ";
                    target location; " ("; nat_str (List.length data);
                    " bytes)"]) :: ev)
| IE_entity location entity ev fin :
    isAllowed (rulesEnforcer this) entity location = true ->
    Pipeline location (indexed (processors this)) entity ev fin ->
    ItemEvents this (EntityResult location entity)
      (EvLog LDebug
         (template ["Got entity at location "; type location; " ";
                    target location; ", "; apiVersion entity; " ";
                    kind entity])
         :: ev ++ [EvEntity {| ee_entity := fin; ee_location := location |}])
| IE_rejected location entity :
    isAllowed (rulesEnforcer this) entity location = false ->
    ItemEvents this (EntityResult location entity)
      [EvError (policy_entry entity location)]
| IE_error location error ev :
    Notify location error (indexed (processors this)) ev ->
    ItemEvents this (ErrorResult location error)
      (EvLog LDebug
         (template ["Encountered error at location "; type location; " ";
                    target location; ", "; toString error])
         :: ev ++ [EvError {| er_location := location; er_error := error |}]).

(** The events of one pass over a pending set. *)
Inductive BodyEvents (this : @LocationReaders W)
    : list Item -> list Event -> Prop :=
| BE_nil : BodyEvents this [] []
| BE_cons item items seg ev :
    ItemEvents this item seg ->
    BodyEvents this items ev ->
    BodyEvents this (item :: items) (EvItem item :: seg ++ ev).

(** The events of the loop of [read] with [remaining] iterations to go. *)
Inductive LoopEvents (this : @LocationReaders W) (location : LocationSpec)
    : nat -> nat -> list Item -> list Event -> Prop :=
| LE_limit depth items :
    LoopEvents this location 0 depth items
      [EvDiscard items; EvLog LWarn (msg_limit location);
       EvError (limit_entry location)]
| LE_done remaining depth items body :
    BodyEvents this items body ->
    emits body = [] ->
    LoopEvents this location (S remaining) depth items
      (EvRound depth items :: body)
| LE_next remaining depth items body ev :
    BodyEvents this items body ->
    emits body <> [] ->
    LoopEvents this location remaining (S depth) (emits body) ev ->
    LoopEvents this location (S remaining) depth items
      (EvRound depth items :: body ++ ev).

(** The errors a pass pushes to the output are those of its pending set: an
    error item is recorded, an entity the enforcer rejects leaves its policy
    error. *)
Definition item_errors (this : @LocationReaders W) (item : Item)
    : list ErrorEntry :=
  match item with
  | ErrorResult location error =>
      [{| er_location := location; er_error := error |}]
  | EntityResult location entity =>
      if isAllowed (rulesEnforcer this) entity location then []
      else [policy_entry entity location]
  | _ => []
  end.

(** The state after a computation extends the state before by its events. *)
Definition extends (st st' : @State W) (ev : list Event) : Prop :=
  trace st' = trace st ++ ev /\
  entities (output st') = entities (output st) ++ pushed_entities ev /\
  errors (output st') = errors (output st) ++ pushed_errors ev.

Definition yields {A} (m : M A) (st : @State W) (a : A) (ev : list Event)
    : Prop :=
  completion m st = Normal a /\
  extends st (after m st) ev /\
  newItems (after m st) = newItems st ++ emits ev.

End Shapes.

(* ================================================================== *)
(** ** The vocabulary of the claims *)

(** The location a hook was called at. *)
Definition call_location (c : Call) : LocationSpec :=
  match c with
  | CReadLocation l _ | CParseData _ l | CProcessEntity _ l | CHandleError _ l => l
  end.

(** The message of the [catch] block around a call. *)
Definition fault_message (c : Call) (pname : string) (e : JsError) : string :=
  match c with
  | CReadLocation l _ => msg_read_fault l pname e
  | CParseData _ l => msg_parse_fault l pname e
  | CProcessEntity _ l => msg_entity_fault l pname e
  | CHandleError _ l => msg_error_fault l pname e
  end.

(** The processor-fault error of a call that threw. *)
Definition fault_error (names : nat -> string) (c : HookCall)
    : list LocationProcessorResult :=
  match call_out c with
  | Threw e =>
      [result.generalError (call_location (call_of c))
         (fault_message (call_of c) (names (call_idx c)) e)]
  | _ => []
  end.

Definition fault_errors (names : nat -> string) (calls : list HookCall)
    : list LocationProcessorResult :=
  flat_map (fault_error names) calls.

(** The handled signal of a first-match hook. *)
Definition handled (c : HookCall) : bool :=
  match call_out c with RetBool true => true | _ => false end.

Definition threw (c : HookCall) : bool :=
  match call_out c with Threw _ => true | _ => false end.

(** The unhandled-input error of an item that no processor takes. *)
Definition unhandled_error (item : LocationProcessorResult)
    : list LocationProcessorResult :=
  match item with
  | LocationResult l _ => [result.inputError l (msg_unreadable l)]
  | DataResult l _ => [result.inputError l (msg_unparsable l)]
  | _ => []
  end.

(** The entry of an error item in the output. *)
Definition error_entry (location : LocationSpec) (error : JsError) : ErrorEntry :=
  {| er_location := location; er_error := error |}.

Definition entry_of (item : LocationProcessorResult) : list ErrorEntry :=
  match item with
  | ErrorResult l e => [error_entry l e]
  | _ => []
  end.

(** The events that a chain of hooks leaves: calls and emits. *)
Definition chain_event (ev : Event) : bool :=
  match ev with EvHook _ _ _ | EvEmit _ _ => true | _ => false end.

Definition round_depth (r : Round) : nat := fst (fst r).
Definition round_items (r : Round) : list LocationProcessorResult := snd (fst r).
Definition round_body (r : Round) : list Event := snd r.
Definition round_events (r : Round) : list Event :=
  EvRound (round_depth r) (round_items r) :: round_body r.

(** The events of the handling of an item, with its marker. *)
Definition run_events (r : LocationProcessorResult * list Event) : list Event :=
  EvItem (fst r) :: snd r.

(** What the rounds of a trace emitted last, or the pending set they started
    from. *)
Definition last_emitted (rs : list Round) (items : list LocationProcessorResult)
    : list LocationProcessorResult :=
  last (map (fun rd => emits (round_body rd)) rs) items.

(** First match wins, read off the events of the handling of an item: the
    capable processors are called in registration order with the call of
    the item; a handled signal is the last call; short of one every capable
    processor is called; when every call declined the engine emits the
    unhandled-input error and nothing else, and it does not emit it once a
    call handled the item. *)
Definition first_match_wins (capable : list nat) (call : Call)
    (unhandled : LocationProcessorResult) (ev : list Event) : Prop :=
  (exists k, map call_idx (hook_calls ev) = firstn k capable) /\
  (forall c, In c (hook_calls ev) -> call_of c = call) /\
  (forall l1 c l2, hook_calls ev = l1 ++ c :: l2 ->
     call_out c = RetBool true -> l2 = []) /\
  ((forall c, In c (hook_calls ev) -> call_out c <> RetBool true) ->
   map call_idx (hook_calls ev) = capable) /\
  ((forall c, In c (hook_calls ev) -> call_out c = RetBool false) ->
   engine_emits ev = [unhandled]) /\
  ((exists c, In c (hook_calls ev) /\ call_out c = RetBool true) ->
   ~ In unhandled (engine_emits ev)).

Section Vocabulary.

Context {W : Type}.

(** The call the engine makes for an item, on the current entity. *)
Definition item_capable (this : @LocationReaders W)
    (item : LocationProcessorResult) : list nat :=
  match item with
  | LocationResult _ _ => capable has_readLocation (processors this)
  | DataResult _ _ => capable has_parseData (processors this)
  | EntityResult l e =>
      if isAllowed (rulesEnforcer this) e l
      then capable has_processEntity (processors this) else []
  | ErrorResult _ _ => capable has_handleError (processors this)
  end.

(** Every pair of a chain is a processor at its registration index. *)
Definition registered (procs : list (@LocationProcessor W))
    (chain : list (nat * @LocationProcessor W)) : Prop :=
  forall i p, In (i, p) chain -> nth_error procs i = Some p.

(** Modelled from the spec: [./CatalogRules] is not among the sources.  A
    rule set maps a location type to the entity kinds permitted from it. *)
Definition enforcer_of_rules (rules : list (string * list string))
    : CatalogRulesEnforcer :=
  {| isAllowed := fun entity location =>
       existsb (fun rule =>
                  String.eqb (fst rule) (type location)
                  && existsb (String.eqb (kind entity)) (snd rule))
               rules |}.

End Vocabulary.

(* ================================================================== *)
(** ** The vocabulary of further properties *)

Section Accounting.

Context {W : Type}.

(** The entries of the entities of a pending set that the enforcer allows,
    as they are before any transformation. *)
Definition allowed_entities (this : @LocationReaders W)
    (items : list LocationProcessorResult) : list EntityEntry :=
  flat_map (fun item =>
              match item with
              | EntityResult l e =>
                  if isAllowed (rulesEnforcer this) e l
                  then [{| ee_entity := e; ee_location := l |}] else []
              | _ => []
              end) items.

(** Whether a processor has the hook of a call. *)
Definition has_hook (c : Call) (p : @LocationProcessor W) : bool :=
  match c with
  | CReadLocation _ _ => has_readLocation p
  | CParseData _ _ => has_parseData p
  | CProcessEntity _ _ => has_processEntity p
  | CHandleError _ _ => has_handleError p
  end.

(** The item a call is made for: the item of the variant of the hook, at
    the location of the call; for [processEntity] an entity item that the
    enforcer allowed. *)
Definition called_for (this : @LocationReaders W) (c : Call)
    (item : LocationProcessorResult) : Prop :=
  match c, item with
  | CReadLocation l o, LocationResult l' o' => l = l' /\ o = o'
  | CParseData d l, DataResult l' d' => l = l' /\ d = d'
  | CProcessEntity _ l, EntityResult l' e' =>
      l = l' /\ isAllowed (rulesEnforcer this) e' l' = true
  | CHandleError e l, ErrorResult l' e' => l = l' /\ e = e'
  | _, _ => False
  end.

(** A property of the world that a hook run keeps. *)
Definition hook_keeps {A} (P : W -> Prop) (h : @Hook W A) : Prop :=
  forall w, P w -> P (world' (h w)).

(** Every hook of a processor keeps a property of the world. *)
Definition processor_keeps (P : W -> Prop) (p : @LocationProcessor W) : Prop :=
  (forall f l o, readLocation p = Some f -> hook_keeps P (f l o)) /\
  (forall f d l, parseData p = Some f -> hook_keeps P (f d l)) /\
  (forall f e l, processEntity p = Some f -> hook_keeps P (f e l)) /\
  (forall f e l, handleError p = Some f -> hook_keeps P (f e l)).

(** A computation of the engine keeps a property of the world. *)
Definition keeps {A} (P : W -> Prop) (m : @M W A) : Prop :=
  forall st, P (world st) -> P (world (after m st)).

(** A reader that declines every location without emitting, and an error
    hook that returns without emitting. *)
Definition declines (f : LocationSpec -> bool -> @Hook W bool) : Prop :=
  forall l o w, outcome (f l o w) = inl false /\ emitted (f l o w) = [].

Definition stays_quiet (h : JsError -> LocationSpec -> @Hook W unit) : Prop :=
  forall e l w, outcome (h e l w) = inl tt /\ emitted (h e l w) = [].

(** An error hook that throws whatever it is given. *)
Definition always_throws (h : JsError -> LocationSpec -> @Hook W unit) : Prop :=
  forall e l w, exists x, outcome (h e l w) = inr x.

End Accounting.

(* ================================================================== *)
(** ** Processors and engines to run the claims on *)

Module Examples.

Definition file (t : string) : LocationSpec := {| type := "file"; target := t |}.

Definition component (v : string) : Entity :=
  {| apiVersion := v; kind := "Component"; fields := [] |}.

Definition user : Entity :=
  {| apiVersion := "v1"; kind := "User"; fields := [] |}.

Definition run {A} (em : list LocationProcessorResult) (o : A + JsError)
    : @Hook unit A :=
  fun w => {| emitted := em; outcome := o; world' := w |}.

Definition idle (n : string) : @LocationProcessor unit :=
  {| name := n; readLocation := None; parseData := None;
     processEntity := None; handleError := None |}.

(** Every location read leads to one more: the target grows by a slash.
    The processor does not claim the location. *)
Definition grow (l : LocationSpec) (optional : bool) : @Hook unit bool :=
  run [LocationResult (file (String.append (target l) "/")) false]
      (inl false).

Definition Grower : @LocationProcessor unit :=
  {| name := "Grower"; readLocation := Some grow;
     parseData := None; processEntity := None; handleError := None |}.

(** Claims every location and emits nothing. *)
Definition Sink : @LocationProcessor unit :=
  {| name := "Sink";
     readLocation := Some (fun _ _ => run [] (inl true));
     parseData := None; processEntity := None; handleError := None |}.

(** Reads a location into two entities, a component and a user. *)
Definition Reader : @LocationProcessor unit :=
  {| name := "Reader";
     readLocation := Some (fun l _ =>
       run [EntityResult l (component "v1"); EntityResult l user]
           (inl true));
     parseData := None; processEntity := None; handleError := None |}.

(** Throws from every hook it has. *)
Definition Faulty : @LocationProcessor unit :=
  {| name := "Faulty";
     readLocation := Some (fun _ _ => run [] (inr (Error "boom")));
     parseData := Some (fun _ _ => run [] (inr (Error "boom")));
     processEntity := Some (fun _ _ => run [] (inr (Error "boom")));
     handleError := None |}.

(** Transforms: each appends a field to the entity it is given. *)
Definition tag (k n : string) (e : Entity) : Entity :=
  {| apiVersion := apiVersion e; kind := kind e;
     fields := fields e ++ [(k, n)] |}.

Definition Tagger (n k : string) : @LocationProcessor unit :=
  {| name := n; readLocation := None; parseData := None;
     processEntity := Some (fun e _ => run [] (inl (tag k n e)));
     handleError := None |}.

Definition components_only : CatalogRulesEnforcer :=
  enforcer_of_rules [("file", ["Component"])].

Definition engine (ps : list (@LocationProcessor unit)) : @LocationReaders unit :=
  {| processors := ps; rulesEnforcer := components_only |}.

Definition start : @State unit := initial tt.

End Examples.

(* ================================================================== *)
(** ** Processors for whole reads *)

Module Fixtures.

Import Examples.

(** Declines every location; listens to errors and does nothing. *)
Definition Bystander : @LocationProcessor unit :=
  {| name := "Bystander";
     readLocation := Some (fun _ _ => run [] (inl false));
     parseData := None; processEntity := None;
     handleError := Some (fun _ _ => run [] (inl tt)) |}.

(** Throws from its error hook, whatever the error. *)
Definition Grumpy : @LocationProcessor unit :=
  {| name := "Grumpy";
     readLocation := None; parseData := None; processEntity := None;
     handleError := Some (fun _ _ => run [] (inr (Error "no"))) |}.

Definition payload : list byte := [x61; x62; x63].

(** Reads every location into the same bytes. *)
Definition read_bytes (l : LocationSpec) (optional : bool) : @Hook unit bool :=
  run [DataResult l payload] (inl true).

Definition FileReader : @LocationProcessor unit :=
  {| name := "FileReader"; readLocation := Some read_bytes;
     parseData := None; processEntity := None; handleError := None |}.

Definition documents : list Entity := [component "v1"; component "v2"].

(** Parses whatever bytes into two components. *)
Definition parse (d : list byte) (l : LocationSpec) : @Hook unit bool :=
  run (map (EntityResult l) documents) (inl true).

Definition Parser : @LocationProcessor unit :=
  {| name := "Parser"; readLocation := None; parseData := Some parse;
     processEntity := None; handleError := None |}.

(** A processor with a counter for a world: every hook adds an even number
    to it, also the one that throws. *)
Definition Counter : @LocationProcessor nat :=
  {| name := "Counter";
     readLocation := Some (fun l _ w =>
       {| emitted := [DataResult l []]; outcome := inl true;
          world' := w + 2 |});
     parseData := Some (fun _ _ w =>
       {| emitted := []; outcome := inr (Error "boom"); world' := w + 4 |});
     processEntity := None;
     handleError := Some (fun _ _ w =>
       {| emitted := []; outcome := inl tt; world' := w + 2 |}) |}.

Definition counting : @LocationReaders nat :=
  {| processors := [Counter]; rulesEnforcer := components_only |}.

Definition even_world (w : nat) : Prop := Nat.even w = true.

End Fixtures.

(* ================================================================== *)
(** ** Reading traces: basic facts *)

Lemma hook_calls_app a b : hook_calls (a ++ b) = hook_calls a ++ hook_calls b.
Proof. apply flat_map_app. Qed.

Lemma emits_app a b : emits (a ++ b) = emits a ++ emits b.
Proof. apply flat_map_app. Qed.

Lemma engine_emits_app a b :
  engine_emits (a ++ b) = engine_emits a ++ engine_emits b.
Proof. apply flat_map_app. Qed.

Lemma dispatched_app a b : dispatched (a ++ b) = dispatched a ++ dispatched b.
Proof. apply flat_map_app. Qed.

Lemma pushed_entities_app a b :
  pushed_entities (a ++ b) = pushed_entities a ++ pushed_entities b.
Proof. apply flat_map_app. Qed.

Lemma pushed_errors_app a b :
  pushed_errors (a ++ b) = pushed_errors a ++ pushed_errors b.
Proof. apply flat_map_app. Qed.

Lemma warnings_app a b : warnings (a ++ b) = warnings a ++ warnings b.
Proof. apply flat_map_app. Qed.

Lemma discarded_app a b : discarded (a ++ b) = discarded a ++ discarded b.
Proof. apply flat_map_app. Qed.

Lemma hook_calls_emits i em : hook_calls (map (EvEmit i) em) = [].
Proof. induction em; simpl; auto. Qed.

Lemma emits_emits i em : emits (map (EvEmit i) em) = em.
Proof. induction em; simpl; f_equal; auto. Qed.

Lemma engine_emits_hook i em :
  engine_emits (map (EvEmit (ByProcessor i)) em) = [].
Proof. induction em; simpl; auto. Qed.

Lemma dispatched_emits i em : dispatched (map (EvEmit i) em) = [].
Proof. induction em; simpl; auto. Qed.

Lemma pushed_entities_emits i em : pushed_entities (map (EvEmit i) em) = [].
Proof. induction em; simpl; auto. Qed.

Lemma pushed_errors_emits i em : pushed_errors (map (EvEmit i) em) = [].
Proof. induction em; simpl; auto. Qed.

Lemma warnings_emits i em : warnings (map (EvEmit i) em) = [].
Proof. induction em; simpl; auto. Qed.

Lemma discarded_emits i em : discarded (map (EvEmit i) em) = [].
Proof. induction em; simpl; auto. Qed.

Lemma item_mark_emits i em : forallb (fun ev => negb (item_mark ev)) (map (EvEmit i) em) = true.
Proof. induction em; simpl; auto. Qed.

Create Rewrite HintDb trace.
#[global] Hint Rewrite hook_calls_app emits_app engine_emits_app dispatched_app
  pushed_entities_app pushed_errors_app warnings_app discarded_app
  hook_calls_emits emits_emits engine_emits_hook dispatched_emits
  pushed_entities_emits pushed_errors_emits warnings_emits discarded_emits
  app_nil_r : trace.

(** Simplify the reading of a trace built from pieces. *)
Ltac trace_simpl :=
  repeat (progress (autorewrite with trace; simpl; try rewrite <- !app_assoc)).

(* ================================================================== *)
(** ** From the engine to its traces *)

Section Soundness.

Context {W : Type}.

#[local] Abbreviation State := (@State W).

Lemma events_of {A} (m : M A) (st : State) ev :
  trace (after m st) = trace st ++ ev -> events m st = ev.
Proof.
  intros E. unfold events. rewrite E.
  rewrite skipn_app, skipn_all, Nat.sub_diag. reflexivity.
Qed.

Lemma yields_events {A} (m : M A) (st : State) a ev :
  yields m st a ev -> events m st = ev.
Proof. intros (_ & (E & _) & _). now apply events_of. Qed.

Lemma yields_ret {A} (a : A) (st : State) : yields (ret a) st a [].
Proof.
  unfold yields, extends, completion, after; simpl.
  now rewrite !app_nil_r.
Qed.

Lemma yields_bind {A B} (m : M A) (k : A -> M B) (st : State) a ev1 b ev2 :
  yields m st a ev1 ->
  yields (k a) (after m st) b ev2 ->
  yields (bind m k) st b (ev1 ++ ev2).
Proof.
  unfold yields, extends, completion, after, bind.
  destruct (m st) as [c st1]; simpl.
  intros (-> & (T1 & E1 & R1) & N1) (C2 & (T2 & E2 & R2) & N2).
  destruct (k a st1) as [c2 st2]; simpl in *. subst c2.
  rewrite T2, E2, R2, N2, T1, E1, R1, N1. trace_simpl. auto.
Qed.

Lemma yields_mark (ev : list Event) (st : State) :
  emits ev = [] -> pushed_entities ev = [] -> pushed_errors ev = [] ->
  yields (mark ev) st tt ev.
Proof.
  intros E1 E2 E3. unfold yields, extends, completion, after; simpl.
  rewrite E1, E2, E3, !app_nil_r. auto.
Qed.

Lemma yields_debug message (st : State) :
  yields (logger_debug message) st tt [EvLog LDebug message].
Proof. now apply yields_mark. Qed.

Lemma yields_emit i (st : State) : yields (emit i) st tt [EvEmit ByEngine i].
Proof.
  unfold yields, extends, completion, after; simpl.
  now rewrite !app_nil_r.
Qed.

Lemma yields_push_entity entry (st : State) :
  yields (push_entity entry) st tt [EvEntity entry].
Proof.
  unfold yields, extends, completion, after; simpl.
  now rewrite !app_nil_r.
Qed.

Lemma yields_push_error entry (st : State) :
  yields (push_error entry) st tt [EvError entry].
Proof.
  unfold yields, extends, completion, after; simpl.
  now rewrite !app_nil_r.
Qed.

(** An awaited hook inside [try]: what it returns is the value; what it
    throws goes to the [catch] block, after its emits. *)
Lemma yields_try_await {A} idx call (out : A -> Outcome) (h : Hook A)
    (handler : JsError -> M A) (st : State) :
  match outcome (h (world st)) with
  | inl a =>
      yields (try_catch (await idx call out h) handler) st a
        (EvHook idx call (out a)
           :: map (EvEmit (ByProcessor idx)) (emitted (h (world st))))
  | inr e =>
      forall b ev,
        yields (handler e) (after (await idx call out h) st) b ev ->
        yields (try_catch (await idx call out h) handler) st b
          (EvHook idx call (Threw e)
             :: map (EvEmit (ByProcessor idx)) (emitted (h (world st))) ++ ev)
  end.
Proof.
  unfold yields, extends, completion, after, try_catch, await.
  destruct (outcome (h (world st))) as [a | e]; simpl.
  - trace_simpl. auto.
  - intros b ev.
    match goal with |- context [handler e ?s] => destruct (handler e s) as [c st2] end.
    simpl. intros (-> & (T & E & R) & N).
    rewrite T, E, R, N. trace_simpl. auto.
Qed.

(** A [catch] block that emits one error and goes on with [v]. *)
Lemma yields_catch_emit {A} i (v : A) (st : State) :
  yields (bind (emit i) (fun _ => ret v)) st v [EvEmit ByEngine i].
Proof.
  change [EvEmit ByEngine i] with ([EvEmit ByEngine i] ++ []).
  eapply yields_bind; [apply yields_emit | apply yields_ret].
Qed.

Lemma handleLocation_loop_shape ps location optional (st : State) :
  exists ev,
    yields (handleLocation_loop ps location optional) st tt ev /\
    FirstMatch (reader_of location optional) (CReadLocation location optional)
      (msg_read_fault location) location (msg_unreadable location) ps ev.
Proof.
  revert st. induction ps as [| [idx p] rest IH]; intros st.
  - eexists; split; [apply yields_emit | apply FM_exhausted].
  - cbn [handleLocation_loop].
    destruct (readLocation p) as [hook |] eqn:Hp.
    2:{ destruct (IH st) as (ev & Y & F). exists ev; split; auto.
        apply FM_skip; auto. unfold reader_of. now rewrite Hp. }
    assert (Hhas : reader_of location optional p = Some (hook location optional))
      by (unfold reader_of; now rewrite Hp).
    match goal with |- context [try_catch ?m ?h] =>
      pose proof (yields_try_await idx (CReadLocation location optional)
                    RetBool (hook location optional) h st) as Y
    end.
    destruct (outcome (hook location optional (world st))) as [[|] | e] eqn:Ho.
    + eexists; split.
      * eapply yields_bind; [exact Y | apply yields_ret].
      * rewrite app_nil_r. eapply FM_handled; eauto.
    + match type of Y with yields ?m _ _ _ =>
        destruct (IH (after m st)) as (ev & Y2 & F) end.
      eexists; split.
      * eapply yields_bind; [exact Y | exact Y2].
      * cbn [app]. eapply FM_declined; eauto.
    + specialize (Y false _ (yields_catch_emit _ _ _)).
      match type of Y with yields ?m _ _ _ =>
        destruct (IH (after m st)) as (ev & Y2 & F) end.
      eexists; split.
      * eapply yields_bind; [exact Y | exact Y2].
      * cbn [app]. rewrite <- app_assoc. cbn [app].
        exact (@FM_threw _ _ _ (msg_read_fault location) _ _
                         idx p rest _ _ e ev Hhas Ho F).
Qed.

Lemma handleData_loop_shape ps location data (st : State) :
  exists ev,
    yields (handleData_loop ps location data) st tt ev /\
    FirstMatch (parser_of data location) (CParseData data location)
      (msg_parse_fault location) location (msg_unparsable location) ps ev.
Proof.
  revert st. induction ps as [| [idx p] rest IH]; intros st.
  - eexists; split; [apply yields_emit | apply FM_exhausted].
  - cbn [handleData_loop].
    destruct (parseData p) as [hook |] eqn:Hp.
    2:{ destruct (IH st) as (ev & Y & F). exists ev; split; auto.
        apply FM_skip; auto. unfold parser_of. now rewrite Hp. }
    assert (Hhas : parser_of data location p = Some (hook data location))
      by (unfold parser_of; now rewrite Hp).
    match goal with |- context [try_catch ?m ?h] =>
      pose proof (yields_try_await idx (CParseData data location)
                    RetBool (hook data location) h st) as Y
    end.
    destruct (outcome (hook data location (world st))) as [[|] | e] eqn:Ho.
    + eexists; split.
      * eapply yields_bind; [exact Y | apply yields_ret].
      * rewrite app_nil_r. eapply FM_handled; eauto.
    + match type of Y with yields ?m _ _ _ =>
        destruct (IH (after m st)) as (ev & Y2 & F) end.
      eexists; split.
      * eapply yields_bind; [exact Y | exact Y2].
      * cbn [app]. eapply FM_declined; eauto.
    + specialize (Y false _ (yields_catch_emit _ _ _)).
      match type of Y with yields ?m _ _ _ =>
        destruct (IH (after m st)) as (ev & Y2 & F) end.
      eexists; split.
      * eapply yields_bind; [exact Y | exact Y2].
      * cbn [app]. rewrite <- app_assoc. cbn [app].
        exact (@FM_threw _ _ _ (msg_parse_fault location) _ _
                         idx p rest _ _ e ev Hhas Ho F).
Qed.

Lemma handleEntity_loop_shape ps location current (st : State) :
  exists ev fin,
    yields (handleEntity_loop ps location current) st fin ev /\
    Pipeline location ps current ev fin.
Proof.
  revert current st. induction ps as [| [idx p] rest IH]; intros current st.
  - exists [], current; split; [apply yields_ret | apply PL_done].
  - cbn [handleEntity_loop].
    destruct (processEntity p) as [hook |] eqn:Hp.
    2:{ destruct (IH current st) as (ev & fin & Y & F).
        exists ev, fin; split; auto. apply PL_skip; auto. }
    match goal with |- context [try_catch ?m ?h] =>
      pose proof (yields_try_await idx (CProcessEntity current location)
                    RetEntity (hook current location) h st) as Y
    end.
    destruct (outcome (hook current location (world st))) as [e' | e] eqn:Ho.
    + match type of Y with yields ?m _ _ _ =>
        destruct (IH e' (after m st)) as (ev & fin & Y2 & F) end.
      eexists; exists fin; split.
      * eapply yields_bind; [exact Y | exact Y2].
      * cbn [app]. eapply PL_step; eauto.
    + specialize (Y current _ (yields_catch_emit _ _ _)).
      match type of Y with yields ?m _ _ _ =>
        destruct (IH current (after m st)) as (ev & fin & Y2 & F) end.
      eexists; exists fin; split.
      * eapply yields_bind; [exact Y | exact Y2].
      * cbn [app]. rewrite <- app_assoc. cbn [app].
        exact (@PL_threw _ _ idx p rest _ _ _ e ev fin Hp Ho F).
Qed.

Lemma handleError_loop_shape ps location error (st : State) :
  exists ev,
    yields (handleError_loop ps location error) st tt ev /\
    Notify location error ps ev.
Proof.
  revert st. induction ps as [| [idx p] rest IH]; intros st.
  - exists []; split; [apply yields_ret | apply NT_done].
  - cbn [handleError_loop].
    destruct (handleError p) as [hook |] eqn:Hp.
    2:{ destruct (IH st) as (ev & Y & F). exists ev; split; auto.
        apply NT_skip; auto. }
    match goal with |- context [try_catch ?m ?h] =>
      pose proof (yields_try_await idx (CHandleError error location)
                    (fun _ => RetVoid) (hook error location) h st) as Y
    end.
    destruct (outcome (hook error location (world st))) as [[] | e] eqn:Ho.
    + match type of Y with yields ?m _ _ _ =>
        destruct (IH (after m st)) as (ev & Y2 & F) end.
      eexists; split.
      * eapply yields_bind; [exact Y | exact Y2].
      * cbn [app]. eapply NT_step; eauto.
    + specialize (Y tt _ (yields_emit _ _)).
      match type of Y with yields ?m _ _ _ =>
        destruct (IH (after m st)) as (ev & Y2 & F) end.
      eexists; split.
      * eapply yields_bind; [exact Y | exact Y2].
      * cbn [app]. rewrite <- app_assoc. cbn [app].
        exact (@NT_threw _ _ _ idx p rest _ _ e ev Hp Ho F).
Qed.

(** The handling of one item never raises, and its events have the shape of
    the variant. *)
Lemma process_item_shape this item (st : State) :
  exists seg,
    yields (process_item this item) st tt (EvItem item :: seg) /\
    ItemEvents this item seg.
Proof.
  unfold process_item.
  assert (Y0 : yields (mark [EvItem item]) st tt [EvItem item])
    by now apply yields_mark.
  set (st0 := after (mark [EvItem item]) st) in *.
  destruct item as [location optional | location data
                   | location entity | location error].
  - unfold handleLocation.
    match goal with |- context [logger_debug ?m] =>
      pose proof (yields_debug m st0) as Y1;
      destruct (handleLocation_loop_shape (indexed (processors this))
                  location optional (after (logger_debug m) st0))
        as (ev & Y & F);
      exists ([EvLog LDebug m] ++ ev)
    end.
    split; [| now apply IE_location].
    change (EvItem ?i :: ?l) with ([EvItem i] ++ l).
    eapply yields_bind; [exact Y0 |].
    eapply yields_bind; [exact Y1 | exact Y].
  - unfold handleData.
    match goal with |- context [logger_debug ?m] =>
      pose proof (yields_debug m st0) as Y1;
      destruct (handleData_loop_shape (indexed (processors this))
                  location data (after (logger_debug m) st0))
        as (ev & Y & F);
      exists ([EvLog LDebug m] ++ ev)
    end.
    split; [| now apply IE_data].
    change (EvItem ?i :: ?l) with ([EvItem i] ++ l).
    eapply yields_bind; [exact Y0 |].
    eapply yields_bind; [exact Y1 | exact Y].
  - destruct (isAllowed (rulesEnforcer this) entity location) eqn:Hallow.
    + unfold handleEntity.
      match goal with |- context [logger_debug ?m] =>
        pose proof (yields_debug m st0) as Y1;
        destruct (handleEntity_loop_shape (indexed (processors this))
                    location entity (after (logger_debug m) st0))
          as (ev & fin & Y & F);
        exists (([EvLog LDebug m] ++ ev)
                  ++ [EvEntity {| ee_entity := fin; ee_location := location |}])
      end.
      split.
      * change (EvItem ?i :: ?l) with ([EvItem i] ++ l).
        eapply yields_bind; [exact Y0 |].
        eapply yields_bind; [| apply yields_push_entity].
        eapply yields_bind; [exact Y1 | exact Y].
      * cbn [app]. now apply IE_entity.
    + exists [EvError (policy_entry entity location)].
      split; [| now apply IE_rejected].
      change (EvItem ?i :: ?l) with ([EvItem i] ++ l).
      eapply yields_bind; [exact Y0 | apply yields_push_error].
  - unfold handleError_.
    match goal with |- context [logger_debug ?m] =>
      pose proof (yields_debug m st0) as Y1;
      destruct (handleError_loop_shape (indexed (processors this))
                  location error (after (logger_debug m) st0))
        as (ev & Y & F);
      exists (([EvLog LDebug m] ++ ev)
                ++ [EvError {| er_location := location; er_error := error |}])
    end.
    split.
    + change (EvItem ?i :: ?l) with ([EvItem i] ++ l).
      eapply yields_bind; [exact Y0 |].
      eapply yields_bind; [| apply yields_push_error].
      eapply yields_bind; [exact Y1 | exact Y].
    + cbn [app]. now apply IE_error.
Qed.

Lemma for_each_shape this items (st : State) :
  exists ev,
    yields (for_each this items) st tt ev /\ BodyEvents this items ev.
Proof.
  revert st. induction items as [| item rest IH]; intros st.
  - exists []; split; [apply yields_ret | apply BE_nil].
  - cbn [for_each].
    destruct (process_item_shape this item st) as (seg & Y & F).
    destruct (IH (after (process_item this item) st)) as (ev & Y2 & F2).
    exists ((EvItem item :: seg) ++ ev); split.
    + eapply yields_bind; [exact Y | exact Y2].
    + cbn [app]. now apply BE_cons.
Qed.

(** One pass of the loop of [read]: a fresh [newItems], then every item of
    the pending set.  It never raises; what it leaves in [newItems] is what
    was emitted during the pass. *)
Lemma round_shape this depth items (st : State) :
  let pass := bind fresh_newItems (fun _ =>
              bind (mark [EvRound depth items]) (fun _ =>
              for_each this items)) in
  exists body,
    completion pass st = Normal tt /\
    extends st (after pass st) (EvRound depth items :: body) /\
    newItems (after pass st) = emits body /\
    BodyEvents this items body.
Proof.
  intros pass.
  destruct (for_each_shape this items
              (after (mark [EvRound depth items]) (after fresh_newItems st)))
    as (body & (C & (T & E & R) & N) & B).
  exists body. subst pass.
  unfold completion, after, extends, bind in *.
  cbn [fresh_newItems mark fst snd] in *.
  match goal with |- context [for_each this items ?s] =>
    destruct (for_each this items s) as [c st1] end.
  cbn [fst snd trace output newItems] in *.
  subst c. rewrite T, E, R, N. cbn [app]. rewrite <- app_assoc.
  repeat split; auto.
Qed.

(** One iteration of the loop of [read]. *)
Lemma read_loop_step this location remaining depth items (st : State) :
  let pass := bind fresh_newItems (fun _ =>
              bind (mark [EvRound depth items]) (fun _ =>
              for_each this items)) in
  read_loop this location (S remaining) depth items st =
    if Nat.eqb (List.length (newItems (after pass st))) 0
    then (Normal (output (after pass st)), after pass st)
    else read_loop this location remaining (S depth)
           (newItems (after pass st)) (after pass st).
Proof.
  intros pass.
  destruct (round_shape this depth items st) as (body & C & _).
  fold pass in C. subst pass.
  cbn [read_loop].
  unfold completion, after, bind in *.
  cbn [fresh_newItems mark fst snd] in *.
  match goal with |- context [for_each this items ?s] =>
    destruct (for_each this items s) as [c st1] end.
  cbn [fst snd] in *. subst c. cbn [get_newItems].
  destruct (Nat.eqb (List.length (newItems st1)) 0); reflexivity.
Qed.

Lemma read_loop_shape this location remaining depth items (st : State) :
  exists ev,
    completion (read_loop this location remaining depth items) st
      = Normal (output (after (read_loop this location remaining depth items) st)) /\
    extends st (after (read_loop this location remaining depth items) st) ev /\
    LoopEvents this location remaining depth items ev.
Proof.
  revert depth items st.
  induction remaining as [| remaining IH]; intros depth items st.
  - exists [EvDiscard items; EvLog LWarn (msg_limit location);
            EvError (limit_entry location)].
    split; [reflexivity | split; [| apply LE_limit]].
    unfold extends, after; cbn. rewrite <- !app_assoc, app_nil_r.
    repeat split.
  - destruct (round_shape this depth items st)
      as (body & C & (T & E & R) & N & B).
    cbv zeta in *.
    unfold completion at 1. unfold after at 1 2.
    rewrite read_loop_step. cbv zeta.
    set (st1 := after _ st) in *.
    destruct (Nat.eqb_spec (List.length (newItems st1)) 0) as [Z | NZ].
    + exists (EvRound depth items :: body).
      cbn [fst snd].
      split; [reflexivity | split; [split; auto |]].
      apply LE_done; auto.
      rewrite <- N. now apply length_zero_iff_nil.
    + destruct (IH (S depth) (newItems st1) st1) as (ev & C2 & (T2 & E2 & R2) & L).
      exists ((EvRound depth items :: body) ++ ev).
      split; [exact C2 | split].
      * unfold extends. fold (after (read_loop this location remaining
                                       (S depth) (newItems st1)) st1).
        rewrite T2, E2, R2, T, E, R.
        rewrite pushed_entities_app, pushed_errors_app, <- !app_assoc. auto.
      * cbn [app]. apply LE_next; auto.
        -- rewrite <- N. intros Hn. apply NZ. now rewrite Hn.
        -- now rewrite <- N.
Qed.

(** [read] never raises; its trace has the shape of the loop from the seed,
    and the output it returns is what was pushed along the trace. *)
Lemma run_read_shape this location (w : W) :
  exists out,
    run_read this location w = (Normal out, snd (run_read this location w)) /\
    output (snd (run_read this location w)) = out /\
    entities out = pushed_entities (trace (snd (run_read this location w))) /\
    errors out = pushed_errors (trace (snd (run_read this location w))) /\
    LoopEvents this location MAX_DEPTH 0 [result.location location false]
      (trace (snd (run_read this location w))).
Proof.
  unfold run_read, read.
  destruct (read_loop_shape this location MAX_DEPTH 0
              [result.location location false] (after fresh_output (initial w)))
    as (ev & C & (T & E & R) & L).
  unfold completion, after, bind in *. cbn [fresh_output initial fst snd] in *.
  match goal with |- context [read_loop ?a ?b ?c ?d ?e ?s] =>
    destruct (read_loop a b c d e s) as [c0 st1] end.
  cbn [fst snd trace output entities errors app] in *.
  subst c0. exists (output st1). rewrite E, R, T. cbn [app]. auto.
Qed.

End Soundness.

(* ================================================================== *)
(** ** Splitting a trace into rounds and items *)

Lemma upto_app stop a b :
  forallb (fun ev => negb (stop ev)) a = true ->
  upto stop (a ++ b) = a ++ upto stop b.
Proof.
  induction a as [| ev a IH]; simpl; auto.
  intros H. apply andb_prop in H as [H1 H2].
  destruct (stop ev); [discriminate |]. now rewrite IH.
Qed.

Lemma upto_all stop a :
  forallb (fun ev => negb (stop ev)) a = true -> upto stop a = a.
Proof.
  intros H. rewrite <- (app_nil_r a) at 1. rewrite upto_app; auto.
  simpl. apply app_nil_r.
Qed.

Lemma item_clean_round_clean a :
  forallb (fun ev => negb (item_mark ev)) a = true ->
  forallb (fun ev => negb (round_mark ev)) a = true.
Proof.
  induction a as [| ev a IH]; simpl; auto.
  intros H. apply andb_prop in H as [H1 H2].
  rewrite IH; auto. destruct ev; simpl in *; auto.
Qed.

Lemma rounds_of_app a b :
  forallb (fun ev => negb (round_mark ev)) a = true ->
  rounds_of (a ++ b) = rounds_of b.
Proof.
  induction a as [| ev a IH]; simpl; auto.
  intros H. apply andb_prop in H as [H1 H2].
  destruct ev; simpl in *; auto; discriminate.
Qed.

Lemma item_runs_app a b :
  forallb (fun ev => negb (item_mark ev)) a = true ->
  item_runs (a ++ b) = item_runs b.
Proof.
  induction a as [| ev a IH]; simpl; auto.
  intros H. apply andb_prop in H as [H1 H2].
  destruct ev; simpl in *; auto; discriminate.
Qed.

Lemma chain_events_clean ev :
  forallb chain_event ev = true ->
  forallb (fun e => negb (item_mark e)) ev = true /\
  dispatched ev = [] /\ pushed_entities ev = [] /\ pushed_errors ev = [] /\
  warnings ev = [] /\ discarded ev = [].
Proof.
  induction ev as [| e ev IH]; simpl; [repeat split; auto |].
  intros H. apply andb_prop in H as [H1 H2].
  destruct (IH H2) as (A & B & C & D & E & F).
  destruct e; simpl in *; try discriminate; repeat split; auto.
Qed.

Lemma forallb_chain_emits i em :
  forallb chain_event (map (EvEmit i) em) = true.
Proof. induction em; simpl; auto. Qed.

(** A reading of traces that goes through [++] sees, in a trace made of
    pieces, what it sees in each piece. *)
Lemma in_flat_map_proj {X Y} (proj : list Event -> list X)
    (h : Y -> list Event) (l : list Y) y x :
  (forall a b, proj (a ++ b) = proj a ++ proj b) ->
  In y l -> In x (proj (h y)) -> In x (proj (flat_map h l)).
Proof.
  intros Happ. induction l as [| z l IH]; simpl; [tauto |].
  intros [-> | Hy] Hx; rewrite Happ; apply in_or_app; auto.
Qed.

Lemma in_proj_cons {X} (proj : list Event -> list X) e tr x :
  (forall a b, proj (a ++ b) = proj a ++ proj b) ->
  In x (proj tr) -> In x (proj (e :: tr)).
Proof.
  intros Happ Hx. change (e :: tr) with ([e] ++ tr).
  rewrite Happ. apply in_or_app. now right.
Qed.

Lemma last_cons_default {X} (a : X) l d : last (a :: l) d = last l a.
Proof.
  revert a d. induction l as [| b l IH]; intros a d; [reflexivity |].
  change (last (a :: b :: l) d) with (last (b :: l) d).
  rewrite (IH b d). symmetry. apply IH.
Qed.

Section Traces.

Context {W : Type}.

#[local] Abbreviation Chain := (list (nat * @LocationProcessor W)).

Lemma FirstMatch_chain_events hook_of call fault location unhandled
    (chain : Chain) ev :
  FirstMatch hook_of call fault location unhandled chain ev ->
  forallb chain_event ev = true.
Proof.
  induction 1; simpl; auto;
    rewrite ?forallb_app, ?forallb_chain_emits; simpl; auto.
Qed.

Lemma Pipeline_chain_events location (chain : Chain) cur ev fin :
  Pipeline location chain cur ev fin -> forallb chain_event ev = true.
Proof.
  induction 1; simpl; auto;
    rewrite ?forallb_app, ?forallb_chain_emits; simpl; auto.
Qed.

Lemma Notify_chain_events location error (chain : Chain) ev :
  Notify location error chain ev -> forallb chain_event ev = true.
Proof.
  induction 1; simpl; auto;
    rewrite ?forallb_app, ?forallb_chain_emits; simpl; auto.
Qed.

(** The handling of an item leaves no marker of a round or of another item,
    and pushes the errors of the item. *)
Lemma ItemEvents_clean (this : @LocationReaders W) item seg :
  ItemEvents this item seg ->
  forallb (fun e => negb (item_mark e)) seg = true /\
  dispatched seg = [] /\ warnings seg = [] /\ discarded seg = [] /\
  pushed_errors seg = item_errors this item.
Proof.
  destruct 1 as [location optional ev F | location data ev F
                | location entity ev fin Hallow P | location entity Hallow
                | location error ev N].
  - apply FirstMatch_chain_events, chain_events_clean in F.
    destruct F as (A & B & C & D & E & G). simpl. auto.
  - apply FirstMatch_chain_events, chain_events_clean in F.
    destruct F as (A & B & C & D & E & G). simpl. auto.
  - apply Pipeline_chain_events, chain_events_clean in P.
    destruct P as (A & B & C & D & E & G). simpl.
    rewrite Hallow, forallb_app, dispatched_app, warnings_app, discarded_app,
      pushed_errors_app, A, B, D, E, G. simpl. auto.
  - simpl. rewrite Hallow. auto.
  - apply Notify_chain_events, chain_events_clean in N.
    destruct N as (A & B & C & D & E & G). simpl.
    rewrite forallb_app, dispatched_app, warnings_app, discarded_app,
      pushed_errors_app, A, B, D, E, G. simpl. auto.
Qed.

(** A pass dispatches its pending set, item by item. *)
Lemma BodyEvents_clean (this : @LocationReaders W) items body :
  BodyEvents this items body ->
  forallb (fun e => negb (round_mark e)) body = true /\
  dispatched body = items /\ warnings body = [] /\ discarded body = [] /\
  pushed_errors body = flat_map (item_errors this) items.
Proof.
  induction 1 as [| item items seg ev I B IH]; simpl; auto.
  destruct (ItemEvents_clean I) as (A1 & B1 & C1 & D1 & E1).
  destruct IH as (A2 & B2 & C2 & D2 & E2).
  rewrite forallb_app, dispatched_app, warnings_app, discarded_app,
    pushed_errors_app, (item_clean_round_clean _ A1), A2, B1, B2, C1, C2,
    D1, D2, E1, E2.
  simpl. auto.
Qed.

Lemma BodyEvents_item_runs (this : @LocationReaders W) items body :
  BodyEvents this items body ->
  body = flat_map run_events (item_runs body) /\
  map fst (item_runs body) = items /\
  forall item seg, In (item, seg) (item_runs body) -> ItemEvents this item seg.
Proof.
  induction 1 as [| item items seg ev I B (IH0 & IH1 & IH2)].
  - simpl. repeat split; auto. intros ? ? [].
  - destruct (ItemEvents_clean I) as (A1 & _).
    cbn [item_runs].
    rewrite item_runs_app by exact A1.
    assert (U : upto item_mark (seg ++ ev) = seg).
    { rewrite upto_app by exact A1.
      destruct B; simpl; auto using app_nil_r. }
    rewrite U. cbn [flat_map map fst]. rewrite IH1, <- IH0.
    split; [reflexivity | split; auto].
    intros item' seg' [E | H'].
    + inversion E; subst; auto.
    + auto.
Qed.

(** *** The calls of a chain *)

Lemma indexed_from k (l : list (@LocationProcessor W)) i p :
  In (i, p) (combine (seq k (List.length l)) l) ->
  k <= i /\ nth_error l (i - k) = Some p.
Proof.
  revert k. induction l as [| q l IH]; simpl; intros k H; [tauto |].
  destruct H as [E | H].
  - inversion E; subst. rewrite Nat.sub_diag. auto.
  - apply IH in H as [L N]. split; [lia |].
    replace (i - k) with (S (i - S k)) by lia. exact N.
Qed.

Lemma registered_indexed (procs : list (@LocationProcessor W)) :
  registered procs (indexed procs).
Proof.
  intros i p H. apply indexed_from in H as [_ N].
  now rewrite Nat.sub_0_r in N.
Qed.

Lemma registered_cons procs i p (rest : Chain) :
  registered procs ((i, p) :: rest) ->
  name_at procs i = name p /\ registered procs rest.
Proof.
  intros R. split.
  - unfold name_at. rewrite (R i p); simpl; auto.
  - intros j q H. apply R. now right.
Qed.

Lemma hook_calls_call i call o em ev :
  hook_calls (EvHook i call o :: map (EvEmit (ByProcessor i)) em ++ ev)
  = (i, call, o) :: hook_calls ev.
Proof. simpl. now rewrite hook_calls_app, hook_calls_emits. Qed.

Lemma engine_emits_call i call o em ev :
  engine_emits (EvHook i call o :: map (EvEmit (ByProcessor i)) em ++ ev)
  = engine_emits ev.
Proof. simpl. now rewrite engine_emits_app, engine_emits_hook. Qed.

Lemma FirstMatch_calls procs hook_of has call fault location unhandled
    (chain : Chain) ev :
  (forall p, has p = match hook_of p with Some _ => true | None => false end) ->
  call_location call = location ->
  (forall n e, fault n e = fault_message call n e) ->
  registered procs chain ->
  FirstMatch hook_of call fault location unhandled chain ev ->
  (exists k, map call_idx (hook_calls ev) = firstn k (capable_of has chain)) /\
  (forall l1 c l2, hook_calls ev = l1 ++ c :: l2 -> handled c = true -> l2 = []) /\
  (existsb handled (hook_calls ev) = false ->
   map call_idx (hook_calls ev) = capable_of has chain) /\
  engine_emits ev
  = fault_errors (name_at procs) (hook_calls ev)
      ++ (if existsb handled (hook_calls ev) then []
          else [result.inputError location unhandled]) /\
  (forall c, In c (hook_calls ev) -> call_of c = call).
Proof.
  intros Hhas Hloc Hfault R F.
  induction F as [| i p rest ev Hn F IH | i p rest h w Hs Ho
                 | i p rest h w ev Hs Ho F IH
                 | i p rest h w e ev Hs Ho F IH].
  - simpl. repeat split; auto.
    + now exists 0.
    + intros [] ? ? E; discriminate.
    + intros ? [].
  - apply registered_cons in R as [_ R].
    destruct (IH R) as (A & B & C & D & E).
    unfold capable_of; simpl. rewrite Hhas, Hn. fold (capable_of has rest).
    repeat split; auto.
  - assert (HC : hook_calls (EvHook i call (RetBool true)
                   :: map (EvEmit (ByProcessor i)) (emitted (h w)))
                 = [(i, call, RetBool true)]).
    { simpl. now rewrite hook_calls_emits. }
    assert (HE : engine_emits (EvHook i call (RetBool true)
                   :: map (EvEmit (ByProcessor i)) (emitted (h w))) = []).
    { simpl. now rewrite engine_emits_hook. }
    rewrite HC, HE. simpl.
    unfold capable_of; simpl. rewrite Hhas, Hs. simpl.
    repeat split; auto.
    + now exists 1.
    + intros [| c1 l1] c l2 E Hc; simpl in E; inversion E; auto.
      destruct l1; discriminate.
    + discriminate.
    + intros c [<- | []]. reflexivity.
  - apply registered_cons in R as [_ R].
    destruct (IH R) as ([k A] & B & C & D & E).
    rewrite hook_calls_call, engine_emits_call. simpl.
    unfold capable_of; simpl. rewrite Hhas, Hs. simpl. fold (capable_of has rest).
    repeat split; auto.
    + exists (S k). simpl. now rewrite A.
    + intros [| c1 l1] c l2 Eq Hc; simpl in Eq; inversion Eq; subst.
      * discriminate.
      * eapply B; eauto.
    + intros Hx. now rewrite C.
    + intros c [<- | Hin]; auto.
  - apply registered_cons in R as [Hname R].
    destruct (IH R) as ([k A] & B & C & D & E).
    replace (EvHook i call (Threw e)
               :: map (EvEmit (ByProcessor i)) (emitted (h w))
               ++ EvEmit ByEngine
                    (result.generalError location (fault (name p) e)) :: ev)
      with (EvHook i call (Threw e)
               :: map (EvEmit (ByProcessor i)) (emitted (h w))
               ++ ([EvEmit ByEngine
                     (result.generalError location (fault (name p) e))] ++ ev))
      by reflexivity.
    rewrite hook_calls_call, engine_emits_call.
    rewrite hook_calls_app, engine_emits_app. simpl.
    unfold capable_of; simpl. rewrite Hhas, Hs. simpl. fold (capable_of has rest).
    repeat split; auto.
    + exists (S k). simpl. now rewrite A.
    + intros [| c1 l1] c l2 Eq Hc; simpl in Eq; inversion Eq; subst.
      * discriminate.
      * eapply B; eauto.
    + intros Hx. now rewrite C.
    + unfold call_of, call_idx; cbn [fst snd].
      rewrite Hloc, Hname, <- Hfault, D. reflexivity.
    + intros c [<- | Hin]; auto.
Qed.

Lemma Pipeline_calls procs location (chain : Chain) cur ev fin :
  registered procs chain ->
  Pipeline location chain cur ev fin ->
  map call_idx (hook_calls ev) = capable_of has_processEntity chain /\
  existsb handled (hook_calls ev) = false /\
  engine_emits ev = fault_errors (name_at procs) (hook_calls ev) /\
  fin = pipeline_result cur (hook_calls ev) /\
  (forall l1 c l2, hook_calls ev = l1 ++ c :: l2 ->
     call_of c = CProcessEntity (pipeline_result cur l1) location).
Proof.
  intros R P.
  induction P as [cur | i p rest cur ev fin Hn P IH
                 | i p rest cur h w e' ev fin Hs Ho P IH
                 | i p rest cur h w e ev fin Hs Ho P IH].
  - simpl. repeat split; auto. intros [] ? ? E; discriminate.
  - apply registered_cons in R as [_ R].
    destruct (IH R) as (A & B & C & D & E).
    unfold capable_of, has_processEntity; simpl. rewrite Hn.
    repeat split; auto.
  - apply registered_cons in R as [_ R].
    destruct (IH R) as (A & B & C & D & E).
    rewrite hook_calls_call, engine_emits_call. simpl.
    unfold capable_of, has_processEntity; simpl. rewrite Hs. simpl.
    repeat split; auto.
    + f_equal. exact A.
    + intros [| c1 l1] c l2 Eq; simpl in Eq; inversion Eq; subst; auto.
      apply (E l1 c l2); auto.
  - apply registered_cons in R as [Hname R].
    destruct (IH R) as (A & B & C & D & E).
    replace (EvHook i (CProcessEntity cur location) (Threw e)
               :: map (EvEmit (ByProcessor i)) (emitted (h cur location w))
               ++ EvEmit ByEngine
                    (result.generalError location
                       (msg_entity_fault location (name p) e)) :: ev)
      with (EvHook i (CProcessEntity cur location) (Threw e)
               :: map (EvEmit (ByProcessor i)) (emitted (h cur location w))
               ++ ([EvEmit ByEngine
                     (result.generalError location
                        (msg_entity_fault location (name p) e))] ++ ev))
      by reflexivity.
    rewrite hook_calls_call, engine_emits_call.
    rewrite hook_calls_app, engine_emits_app. simpl.
    unfold capable_of, has_processEntity; simpl. rewrite Hs. simpl.
    repeat split; auto.
    + f_equal. exact A.
    + unfold call_of, call_idx; cbn [fst snd fault_message call_location].
      rewrite Hname, C. reflexivity.
    + intros [| c1 l1] c l2 Eq; simpl in Eq; inversion Eq; subst; auto.
      apply (E l1 c l2); auto.
Qed.

Lemma Notify_calls procs location error (chain : Chain) ev :
  registered procs chain ->
  Notify location error chain ev ->
  map call_idx (hook_calls ev) = capable_of has_handleError chain /\
  existsb handled (hook_calls ev) = false /\
  engine_emits ev = fault_errors (name_at procs) (hook_calls ev) /\
  (forall c, In c (hook_calls ev) -> call_of c = CHandleError error location).
Proof.
  intros R N.
  induction N as [| i p rest ev Hn N IH
                 | i p rest h w ev Hs Ho N IH
                 | i p rest h w e ev Hs Ho N IH].
  - simpl. repeat split; auto. intros ? [].
  - apply registered_cons in R as [_ R].
    destruct (IH R) as (A & B & C & D).
    unfold capable_of, has_handleError; simpl. rewrite Hn.
    repeat split; auto.
  - apply registered_cons in R as [_ R].
    destruct (IH R) as (A & B & C & D).
    rewrite hook_calls_call, engine_emits_call. simpl.
    unfold capable_of, has_handleError; simpl. rewrite Hs. simpl.
    repeat split; auto.
    + f_equal. exact A.
    + intros c [<- | Hin]; auto.
  - apply registered_cons in R as [Hname R].
    destruct (IH R) as (A & B & C & D).
    replace (EvHook i (CHandleError error location) (Threw e)
               :: map (EvEmit (ByProcessor i)) (emitted (h error location w))
               ++ EvEmit ByEngine
                    (result.generalError location
                       (msg_error_fault location (name p) e)) :: ev)
      with (EvHook i (CHandleError error location) (Threw e)
               :: map (EvEmit (ByProcessor i)) (emitted (h error location w))
               ++ ([EvEmit ByEngine
                     (result.generalError location
                        (msg_error_fault location (name p) e))] ++ ev))
      by reflexivity.
    rewrite hook_calls_call, engine_emits_call.
    rewrite hook_calls_app, engine_emits_app. simpl.
    unfold capable_of, has_handleError; simpl. rewrite Hs. simpl.
    repeat split; auto.
    + f_equal. exact A.
    + unfold call_of, call_idx; cbn [fst snd fault_message call_location].
      rewrite Hname, C. reflexivity.
    + intros c [<- | Hin]; auto.
Qed.

(** The calls of the handling of one item: the capable processors in
    registration order, stopped only by a handled signal; the engine emits
    one processor-fault error per call that threw, and the unhandled-input
    error of the item when nothing handled it. *)
Lemma ItemEvents_calls (this : @LocationReaders W) item seg :
  ItemEvents this item seg ->
  (exists k, map call_idx (hook_calls seg) = firstn k (item_capable this item)) /\
  (forall l1 c l2, hook_calls seg = l1 ++ c :: l2 -> handled c = true -> l2 = []) /\
  (existsb handled (hook_calls seg) = false ->
   map call_idx (hook_calls seg) = item_capable this item) /\
  engine_emits seg
  = fault_errors (name_at (processors this)) (hook_calls seg)
      ++ (if existsb handled (hook_calls seg) then [] else unhandled_error item) /\
  (forall c, In c (hook_calls seg) ->
     call_location (call_of c) = item_location item).
Proof.
  pose proof (registered_indexed (processors this)) as R.
  destruct 1 as [location optional ev F | location data ev F
                | location entity ev fin Hallow P | location entity Hallow
                | location error ev N].
  - assert (Hh : forall p : @LocationProcessor W, has_readLocation p
              = match reader_of location optional p with
                | Some _ => true | None => false end).
    { intros p. unfold has_readLocation, reader_of.
      now destruct (readLocation p). }
    destruct (FirstMatch_calls has_readLocation Hh eq_refl
                (fun _ _ => eq_refl) R F) as (A & B & C & D & E).
    simpl. repeat split; auto. intros c Hc. now rewrite (E c Hc).
  - assert (Hh : forall p : @LocationProcessor W, has_parseData p
              = match parser_of data location p with
                | Some _ => true | None => false end).
    { intros p. unfold has_parseData, parser_of.
      now destruct (parseData p). }
    destruct (FirstMatch_calls has_parseData Hh eq_refl
                (fun _ _ => eq_refl) R F) as (A & B & C & D & E).
    simpl. repeat split; auto. intros c Hc. now rewrite (E c Hc).
  - eapply Pipeline_calls in P; eauto.
    destruct P as (A & B & C & D & E). simpl.
    rewrite hook_calls_app, engine_emits_app, Hallow. simpl.
    rewrite !app_nil_r, B.
    split; [| split; [| split; [| split]]].
    + exists (List.length (capable has_processEntity (processors this))).
      now rewrite firstn_all.
    + intros l1 c l2 Eq Hc. exfalso.
      assert (Hin : In c (hook_calls ev)) by (rewrite Eq; apply in_elt).
      rewrite <- not_true_iff_false in B. apply B.
      apply existsb_exists. eauto.
    + auto.
    + now rewrite app_nil_r.
    + intros c Hc. apply in_split in Hc as (l1 & l2 & Eq).
      now rewrite (E _ _ _ Eq).
  - simpl. rewrite Hallow.
    split; [| split; [| split; [| split]]]; auto.
    + now exists 0.
    + intros [] ? ? Eq; discriminate.
    + intros ? [].
  - eapply Notify_calls in N; eauto.
    destruct N as (A & B & C & D). simpl.
    rewrite hook_calls_app, engine_emits_app. simpl.
    rewrite !app_nil_r, B.
    split; [| split; [| split; [| split]]].
    + exists (List.length (capable has_handleError (processors this))).
      now rewrite firstn_all.
    + intros l1 c l2 Eq Hc. exfalso.
      assert (Hin : In c (hook_calls ev)) by (rewrite Eq; apply in_elt).
      rewrite <- not_true_iff_false in B. apply B.
      apply existsb_exists. eauto.
    + auto.
    + now rewrite app_nil_r.
    + intros c Hc. now rewrite (D c Hc).
Qed.

(** *** The rounds of the loop *)

Lemma LoopEvents_starts (this : @LocationReaders W) location r d items ev :
  LoopEvents this location r d items ev -> upto round_mark ev = [].
Proof. destruct 1; reflexivity. Qed.

(** The loop, one iteration at a time, with its rounds read off the trace. *)
Lemma LoopEvents_step (this : @LocationReaders W) location r d items ev :
  LoopEvents this location (S r) d items ev ->
  exists body ev',
    BodyEvents this items body /\
    ev = EvRound d items :: body ++ ev' /\
    rounds_of ev = (d, items, body) :: rounds_of ev' /\
    ((emits body = [] /\ ev' = []) \/
     (emits body <> [] /\ LoopEvents this location r (S d) (emits body) ev')).
Proof.
  inversion 1 as [| r' d' items' body B E | r' d' items' body ev' B E L]; subst.
  - exists body, []. destruct (BodyEvents_clean B) as (A & _).
    rewrite app_nil_r. repeat split; auto.
    simpl. rewrite upto_all by exact A.
    rewrite <- (app_nil_r body) at 2. rewrite rounds_of_app by exact A.
    reflexivity.
  - exists body, ev'. destruct (BodyEvents_clean B) as (A & _).
    repeat split; auto.
    simpl. rewrite upto_app by exact A.
    rewrite (LoopEvents_starts L), app_nil_r, rounds_of_app by exact A.
    reflexivity.
Qed.

Lemma LoopEvents_limit (this : @LocationReaders W) location d items ev :
  LoopEvents this location 0 d items ev ->
  ev = [EvDiscard items; EvLog LWarn (msg_limit location);
        EvError (limit_entry location)].
Proof. now inversion 1. Qed.

(** Every round of the trace is a pass over its pending set; the rounds are
    numbered from the depth the loop starts at; there are no more of them
    than iterations. *)
Lemma LoopEvents_rounds (this : @LocationReaders W) location r d items ev :
  LoopEvents this location r d items ev ->
  List.length (rounds_of ev) <= r /\
  (forall n rd, nth_error (rounds_of ev) n = Some rd ->
     round_depth rd = d + n /\
     BodyEvents this (round_items rd) (round_body rd)) /\
  (forall n r1 r2, nth_error (rounds_of ev) n = Some r1 ->
     nth_error (rounds_of ev) (S n) = Some r2 ->
     round_items r2 = emits (round_body r1)) /\
  (0 < r -> exists body rest, rounds_of ev = (d, items, body) :: rest).
Proof.
  revert d items ev. induction r as [| r IH]; intros d items ev L.
  - apply LoopEvents_limit in L. subst ev. simpl.
    split; [lia | split; [| split]].
    + intros [| n] ? ?; discriminate.
    + intros [| n] ? ? ?; discriminate.
    + lia.
  - apply LoopEvents_step in L
      as (body & ev' & B & -> & Rs & [[E ->] | [E L]]).
    + rewrite Rs. simpl.
      split; [lia | split; [| split]].
      * intros [| [| n]] rd H; simpl in H; try discriminate.
        inversion H; subst. unfold round_depth; simpl. split; [lia | exact B].
      * intros n r1 r2 H1 H2; simpl in H2; destruct n; discriminate.
      * eauto.
    + destruct (IH _ _ _ L) as (A1 & A2 & A3 & A4).
      rewrite Rs. simpl.
      split; [lia | split; [| split]].
      * intros [| n] rd H; simpl in H.
        -- inversion H; subst. unfold round_depth; simpl. split; [lia | exact B].
        -- apply A2 in H as [H H']. rewrite H. split; [lia | exact H'].
      * intros [| n] r1 r2 H1 H2; simpl in H1, H2.
        -- inversion H1; subst. unfold round_body; simpl.
           destruct r as [| r].
           ++ apply LoopEvents_limit in L. subst ev'. discriminate.
           ++ destruct (A4 ltac:(lia)) as (b' & rest & Rs').
              rewrite Rs' in H2. simpl in H2. inversion H2; subst.
              reflexivity.
        -- eapply A3; eauto.
      * eauto.
Qed.

(** How the loop ends: on a round that emitted nothing, or at the bound,
    where what the last round emitted is dropped. *)
Lemma LoopEvents_end (this : @LocationReaders W) location r d items ev :
  LoopEvents this location r d items ev ->
  (exists pre rd,
     rounds_of ev = pre ++ [rd] /\ emits (round_body rd) = [] /\
     Forall (fun r' => emits (round_body r') <> []) pre /\
     ev = flat_map round_events (rounds_of ev))
  \/
  (List.length (rounds_of ev) = r /\
   Forall (fun r' => emits (round_body r') <> []) (rounds_of ev) /\
   ev = flat_map round_events (rounds_of ev)
          ++ [EvDiscard (last_emitted (rounds_of ev) items);
              EvLog LWarn (msg_limit location);
              EvError (limit_entry location)]).
Proof.
  revert d items ev. induction r as [| r IH]; intros d items ev L.
  - apply LoopEvents_limit in L. subst ev. right. simpl. auto.
  - apply LoopEvents_step in L
      as (body & ev' & B & -> & Rs & [[E ->] | [E L]]).
    + left. exists [], (d, items, body). rewrite Rs. simpl.
      rewrite !app_nil_r. auto.
    + assert (Hlast : last_emitted ((d, items, body) :: rounds_of ev') items
                      = last_emitted (rounds_of ev') (emits body)).
      { unfold last_emitted. cbn [map]. apply last_cons_default. }
      destruct (IH _ _ _ L)
        as [(pre & rd & Rs' & E' & F' & Ev') | (Len & F' & Ev')].
      * left. exists ((d, items, body) :: pre), rd.
        split; [rewrite Rs, Rs'; reflexivity |].
        split; [exact E' |].
        split; [constructor; auto |].
        rewrite Rs. cbn [flat_map]. rewrite <- Ev'. reflexivity.
      * right.
        split; [rewrite Rs; simpl; lia |].
        split; [rewrite Rs; constructor; auto |].
        rewrite Rs, Hlast. cbn [flat_map].
        rewrite <- app_assoc, <- Ev'. reflexivity.
Qed.

(** What the rounds of a trace dispatched and pushed. *)
Lemma rounds_events_facts (this : @LocationReaders W) rs :
  (forall rd, In rd rs -> BodyEvents this (round_items rd) (round_body rd)) ->
  dispatched (flat_map round_events rs) = flat_map round_items rs /\
  pushed_errors (flat_map round_events rs)
  = flat_map (item_errors this) (flat_map round_items rs) /\
  warnings (flat_map round_events rs) = [] /\
  discarded (flat_map round_events rs) = [].
Proof.
  induction rs as [| rd rs IH]; simpl; auto.
  intros H. destruct IH as (A & B & C & D); [intros; apply H; auto |].
  destruct (BodyEvents_clean (H rd (or_introl eq_refl))) as (_ & A' & C' & D' & B').
  rewrite dispatched_app, pushed_errors_app, warnings_app, discarded_app,
    flat_map_app, A, B, C, D.
  unfold round_events; simpl. rewrite A', B', C', D'. auto.
Qed.

(** An error item emitted in a round that is not the last one the bound
    allows is pending in the next round, which records it. *)
Lemma LoopEvents_reports (this : @LocationReaders W) location r d items ev :
  LoopEvents this location r d items ev ->
  forall rd, In rd (rounds_of ev) -> S (round_depth rd) < d + r ->
  forall l err, In (ErrorResult l err) (emits (round_body rd)) ->
  In (error_entry l err) (pushed_errors ev).
Proof.
  revert d items ev. induction r as [| r IH]; intros d items ev L rd Hin Hd l err He.
  - apply LoopEvents_limit in L. subst ev. destruct Hin.
  - apply LoopEvents_step in L
      as (body & ev' & B & -> & Rs & [[E ->] | [E L]]).
    + rewrite Rs in Hin. destruct Hin as [<- | []].
      unfold round_body in He; simpl in He. rewrite E in He. destruct He.
    + rewrite Rs in Hin.
      apply in_proj_cons; [apply pushed_errors_app |].
      rewrite pushed_errors_app. apply in_or_app. right.
      destruct Hin as [<- | Hin].
      * unfold round_depth, round_body in *; simpl in *.
        destruct r as [| r]; [lia |].
        apply LoopEvents_step in L as (body' & ev'' & B' & -> & _).
        destruct (BodyEvents_clean B') as (_ & _ & _ & _ & P).
        apply in_proj_cons; [apply pushed_errors_app |].
        rewrite pushed_errors_app, P. apply in_or_app. left.
        apply in_flat_map. exists (ErrorResult l err). split; auto.
        simpl. auto.
      * eapply IH; eauto. lia.
Qed.

(** What the handling of an item emitted and pushed is emitted and pushed by
    its round. *)
Lemma BodyEvents_item_incl (this : @LocationReaders W) {X}
    (proj : list Event -> list X) items body item seg x :
  (forall a b, proj (a ++ b) = proj a ++ proj b) ->
  BodyEvents this items body ->
  In (item, seg) (item_runs body) ->
  In x (proj seg) -> In x (proj body).
Proof.
  intros Happ B Hin Hx.
  destruct (BodyEvents_item_runs B) as (E & _).
  rewrite E. eapply in_flat_map_proj; eauto.
  unfold run_events; simpl. now apply in_proj_cons.
Qed.

(** *** The trace of [read] *)

Lemma read_trace (this : @LocationReaders W) location (w : W) :
  let r := run_read this location w in
  r = (Normal (output (snd r)), snd r) /\
  entities (output (snd r)) = pushed_entities (trace (snd r)) /\
  errors (output (snd r)) = pushed_errors (trace (snd r)) /\
  LoopEvents this location MAX_DEPTH 0 [result.location location false]
    (trace (snd r)).
Proof.
  destruct (run_read_shape this location w) as (out & E & O & En & Er & L).
  cbv zeta. rewrite O. auto.
Qed.

Lemma read_round (this : @LocationReaders W) location (w : W) rd :
  In rd (rounds_of (trace (snd (run_read this location w)))) ->
  round_depth rd < MAX_DEPTH /\
  BodyEvents this (round_items rd) (round_body rd).
Proof.
  destruct (read_trace this location w) as (_ & _ & _ & L).
  destruct (LoopEvents_rounds L) as (Len & A & _).
  intros Hin. apply In_nth_error in Hin as [n Hn].
  destruct (A n rd Hn) as [D B]. split; auto.
  assert (n < List.length (rounds_of (trace (snd (run_read this location w)))))
    by (apply nth_error_Some; congruence).
  simpl in D. lia.
Qed.

Lemma read_pushed (this : @LocationReaders W) location (w : W) rd :
  In rd (rounds_of (trace (snd (run_read this location w)))) ->
  (forall x, In x (pushed_errors (round_body rd)) ->
     In x (errors (output (snd (run_read this location w))))) /\
  (forall x, In x (pushed_entities (round_body rd)) ->
     In x (entities (output (snd (run_read this location w))))).
Proof.
  destruct (read_trace this location w) as (_ & En & Er & L).
  cbv zeta in *. intros Hin. rewrite En, Er.
  assert (P : forall X (proj : list Event -> list X) x,
             (forall a b, proj (a ++ b) = proj a ++ proj b) ->
             In x (proj (round_body rd)) ->
             In x (proj (trace (snd (run_read this location w))))).
  { intros X proj x Happ Hx.
    assert (Hf : In x (proj (flat_map round_events
                (rounds_of (trace (snd (run_read this location w))))))).
    { eapply in_flat_map_proj; eauto.
      unfold round_events. now apply in_proj_cons. }
    destruct (LoopEvents_end L) as [(pre & last & _ & _ & _ & ->)
                                   | (_ & _ & ->)]; auto.
    rewrite Happ. apply in_or_app. now left. }
  split; intros x Hx.
  - apply (P _ pushed_errors x pushed_errors_app Hx).
  - apply (P _ pushed_entities x pushed_entities_app Hx).
Qed.

Lemma read_reports (this : @LocationReaders W) location (w : W) rd l err :
  In rd (rounds_of (trace (snd (run_read this location w)))) ->
  S (round_depth rd) < MAX_DEPTH ->
  In (ErrorResult l err) (emits (round_body rd)) ->
  In (error_entry l err) (errors (output (snd (run_read this location w)))).
Proof.
  destruct (read_trace this location w) as (_ & _ & Er & L).
  cbv zeta in *. intros Hin Hd He. rewrite Er.
  eapply LoopEvents_reports; eauto.
Qed.

End Traces.

(* ================================================================== *)
(** ** The claims *)

Section Claims.

Context {W : Type}.

#[local] Abbreviation State := (@State W).

(** The handling of an item: what it returns, what it leaves in the state,
    and the shape of its events. *)
Lemma process_item_events (this : @LocationReaders W) item (st : State) :
  exists seg,
    events (process_item this item) st = EvItem item :: seg /\
    ItemEvents this item seg /\
    completion (process_item this item) st = Normal tt /\
    entities (output (after (process_item this item) st))
    = entities (output st) ++ pushed_entities seg /\
    errors (output (after (process_item this item) st))
    = errors (output st) ++ pushed_errors seg /\
    newItems (after (process_item this item) st) = newItems st ++ emits seg.
Proof.
  destruct (process_item_shape this item st) as (seg & Y & I).
  exists seg. pose proof (yields_events Y) as E.
  destruct Y as (C & (_ & En & Er) & N). simpl in *. auto 7.
Qed.

Lemma handled_true c : handled c = true <-> call_out c = RetBool true.
Proof.
  unfold handled. destruct (call_out c) as [[|] | | |]; split;
    intros H; try discriminate; auto.
Qed.

Lemma not_handled calls :
  existsb handled calls = false <->
  (forall c, In c calls -> call_out c <> RetBool true).
Proof.
  split.
  - intros H c Hc Ho. rewrite <- not_true_iff_false in H. apply H.
    apply existsb_exists. exists c. split; auto. now apply handled_true.
  - intros H. apply not_true_iff_false. intros Hx.
    apply existsb_exists in Hx as (c & Hc & Hh).
    apply handled_true in Hh. now apply (H c).
Qed.

Lemma declined_no_faults names calls :
  (forall c, In c calls -> call_out c = RetBool false) ->
  fault_errors names calls = [] /\ existsb handled calls = false.
Proof.
  intros H. split.
  - induction calls as [| c calls IH]; simpl; auto.
    unfold fault_error at 1. rewrite (H c) by now left.
    apply IH. intros; apply H; now right.
  - apply not_handled. intros c Hc. rewrite (H c Hc). discriminate.
Qed.

Lemma fault_errors_general names calls x :
  In x (fault_errors names calls) ->
  exists l m, x = result.generalError l m.
Proof.
  unfold fault_errors. rewrite in_flat_map. intros (c & _ & Hx).
  unfold fault_error in Hx. destruct (call_out c); simpl in Hx; try tauto.
  destruct Hx as [<- | []]. eauto.
Qed.

Lemma fault_errors_in names calls i c e :
  In (i, c, Threw e) calls ->
  In (result.generalError (call_location c) (fault_message c (names i) e))
     (fault_errors names calls).
Proof.
  intros H. unfold fault_errors. apply in_flat_map.
  exists (i, c, Threw e). split; auto. simpl. auto.
Qed.

(** First match wins for the item of a first-match chain. *)
Lemma item_first_match (this : @LocationReaders W) item seg call u :
  ItemEvents this item seg ->
  unhandled_error item = [u] ->
  (forall c, In c (hook_calls seg) -> call_of c = call) ->
  first_match_wins (item_capable this item) call u (EvItem item :: seg).
Proof.
  intros I Hu Hcall.
  destruct (ItemEvents_calls I) as (A & B & C & D & _).
  unfold first_match_wins.
  change (hook_calls (EvItem item :: seg)) with (hook_calls seg).
  change (engine_emits (EvItem item :: seg)) with (engine_emits seg).
  split; [exact A | split; [exact Hcall | split; [| split; [| split]]]].
  - intros l1 c l2 E Ho. eapply B; eauto. now apply handled_true.
  - intros H. apply C. now apply not_handled.
  - intros H. destruct (declined_no_faults (name_at (processors this)) _ H)
      as [F N].
    rewrite D, F, N, Hu. reflexivity.
  - intros (c & Hc & Ho) Hin.
    assert (N : existsb handled (hook_calls seg) = true).
    { apply existsb_exists. exists c. split; auto. now apply handled_true. }
    rewrite D, N, app_nil_r in Hin.
    apply fault_errors_general in Hin as (l & m & ->).
    destruct item; simpl in Hu; inversion Hu.
Qed.

(** C4. For a [LocationResult] (resp. [DataResult]) item the processors are
    tried in registration order on [readLocation] (resp. [parseData]); the
    first handled signal ends the chain, so that no later hook is called for
    the item; when every capable processor declines, the engine emits exactly
    one unhandled-input error for the location of the item. *)
Theorem C4_first_match_wins (this : @LocationReaders W) location optional data
    (st : State) :
  completion (process_item this (LocationResult location optional)) st
  = Normal tt /\
  first_match_wins (capable has_readLocation (processors this))
    (CReadLocation location optional)
    (result.inputError location (msg_unreadable location))
    (events (process_item this (LocationResult location optional)) st) /\
  completion (process_item this (DataResult location data)) st = Normal tt /\
  first_match_wins (capable has_parseData (processors this))
    (CParseData data location)
    (result.inputError location (msg_unparsable location))
    (events (process_item this (DataResult location data)) st).
Proof.
  destruct (process_item_events this (LocationResult location optional) st)
    as (segL & EL & IL & CL & _).
  destruct (process_item_events this (DataResult location data) st)
    as (segD & ED & ID & CD & _).
  rewrite EL, ED.
  split; [exact CL | split; [| split; [exact CD |]]].
  - apply (item_first_match IL eq_refl).
    inversion IL as [? ? ev F | | | |]; subst.
    pose proof (registered_indexed (processors this)) as R.
    assert (Hh : forall p : @LocationProcessor W, has_readLocation p
              = match reader_of location optional p with
                | Some _ => true | None => false end).
    { intros p. unfold has_readLocation, reader_of.
      now destruct (readLocation p). }
    destruct (FirstMatch_calls has_readLocation Hh eq_refl
                (fun _ _ => eq_refl) R F) as (_ & _ & _ & _ & E).
    exact E.
  - apply (item_first_match ID eq_refl).
    inversion ID as [| ? ? ev F | | |]; subst.
    pose proof (registered_indexed (processors this)) as R.
    assert (Hh : forall p : @LocationProcessor W, has_parseData p
              = match parser_of data location p with
                | Some _ => true | None => false end).
    { intros p. unfold has_parseData, parser_of.
      now destruct (parseData p). }
    destruct (FirstMatch_calls has_parseData Hh eq_refl
                (fun _ _ => eq_refl) R F) as (_ & _ & _ & _ & E).
    exact E.
Qed.

(** *** The admission gate and the pipeline *)

Lemma pipeline_result_snoc entity l c :
  pipeline_result entity (l ++ [c]) = apply_call (pipeline_result entity l) c.
Proof. unfold pipeline_result. now rewrite fold_left_app. Qed.

Lemma pipeline_result_threw entity l :
  forallb threw l = true -> pipeline_result entity l = entity.
Proof.
  induction l as [| c l IH] using rev_ind; auto.
  rewrite forallb_app. simpl. intros H.
  apply andb_prop in H as [H1 H2]. apply andb_prop in H2 as [H2 _].
  rewrite pipeline_result_snoc, IH by exact H1.
  unfold apply_call, threw in *. now destruct (call_out c).
Qed.

Lemma pipeline_result_last entity la cb lb e' :
  call_out cb = RetEntity e' -> forallb threw lb = true ->
  pipeline_result entity (la ++ cb :: lb) = e'.
Proof.
  intros Ho Ht. unfold pipeline_result.
  rewrite fold_left_app. simpl.
  fold (pipeline_result (apply_call (fold_left apply_call la entity) cb) lb).
  rewrite pipeline_result_threw by exact Ht.
  unfold apply_call. now rewrite Ho.
Qed.

(** An entity the enforcer allows goes through the pipeline and is recorded;
    one it rejects leaves its policy error and nothing else. *)
Lemma allowed_item_events (this : @LocationReaders W) location entity seg :
  ItemEvents this (EntityResult location entity) seg ->
  isAllowed (rulesEnforcer this) entity location = true ->
  map call_idx (hook_calls seg) = capable has_processEntity (processors this) /\
  (forall l1 c l2, hook_calls seg = l1 ++ c :: l2 ->
     call_of c = CProcessEntity (pipeline_result entity l1) location) /\
  pushed_entities seg
  = [{| ee_entity := pipeline_result entity (hook_calls seg);
        ee_location := location |}] /\
  pushed_errors seg = [] /\
  engine_emits seg = fault_errors (name_at (processors this)) (hook_calls seg).
Proof.
  intros I Hallow.
  inversion I as [| | ? ? ev fin _ P | ? ? Hn |]; subst;
    [| rewrite Hallow in Hn; discriminate].
  pose proof (registered_indexed (processors this)) as R.
  destruct (Pipeline_calls R P) as (A & _ & C & D & E).
  apply Pipeline_chain_events, chain_events_clean in P.
  destruct P as (_ & _ & Pe & Pr & _).
  simpl. rewrite hook_calls_app, pushed_entities_app, pushed_errors_app,
    engine_emits_app, Pe, Pr. simpl. rewrite !app_nil_r.
  subst fin. auto.
Qed.

Lemma rejected_item_events (this : @LocationReaders W) location entity seg :
  ItemEvents this (EntityResult location entity) seg ->
  isAllowed (rulesEnforcer this) entity location = false ->
  seg = [EvError (policy_entry entity location)].
Proof.
  intros I Hn.
  inversion I as [| | ? ? ev fin Hallow P | |]; subst; auto.
  rewrite Hn in Hallow. discriminate.
Qed.

(** C2, as amended.  For every [EntityResult] item: when the enforcer rejects
    the entity, its policy error is pushed to the output errors at once
    (nothing is emitted for the next round), no hook is called and the output
    entities stay as they are; when the enforcer allows it, every capable
    processor is called on [processEntity] and the entity the pipeline ends
    with, paired with the location of the item, is appended to the output
    entities. *)
Theorem C2_policy_gate (this : @LocationReaders W) location entity (st : State) :
  let m := process_item this (EntityResult location entity) in
  completion m st = Normal tt /\
  (isAllowed (rulesEnforcer this) entity location = false ->
     pushed_errors (events m st) = [policy_entry entity location] /\
     errors (output (after m st))
     = errors (output st) ++ [policy_entry entity location] /\
     emits (events m st) = [] /\
     newItems (after m st) = newItems st /\
     hook_calls (events m st) = [] /\
     pushed_entities (events m st) = [] /\
     entities (output (after m st)) = entities (output st)) /\
  (isAllowed (rulesEnforcer this) entity location = true ->
     map call_idx (hook_calls (events m st))
     = capable has_processEntity (processors this) /\
     (forall c, In c (hook_calls (events m st)) ->
        exists e, call_of c = CProcessEntity e location) /\
     pushed_entities (events m st)
     = [{| ee_entity := pipeline_result entity (hook_calls (events m st));
           ee_location := location |}] /\
     entities (output (after m st))
     = entities (output st)
         ++ [{| ee_entity := pipeline_result entity (hook_calls (events m st));
                ee_location := location |}] /\
     pushed_errors (events m st) = [] /\
     errors (output (after m st)) = errors (output st)).
Proof.
  intros m. subst m.
  destruct (process_item_events this (EntityResult location entity) st)
    as (seg & E & I & C & En & Er & N).
  rewrite E, En, Er, N.
  change (hook_calls (EvItem (EntityResult location entity) :: seg))
    with (hook_calls seg).
  change (pushed_entities (EvItem (EntityResult location entity) :: seg))
    with (pushed_entities seg).
  change (pushed_errors (EvItem (EntityResult location entity) :: seg))
    with (pushed_errors seg).
  change (emits (EvItem (EntityResult location entity) :: seg))
    with (emits seg).
  split; [exact C | split].
  - intros Hn. rewrite (rejected_item_events I Hn). simpl.
    rewrite !app_nil_r. auto 8.
  - intros Hallow.
    destruct (allowed_item_events I Hallow) as (A & B & Pe & Pr & _).
    rewrite Pe, Pr, app_nil_r.
    split; [exact A | split; [| auto]].
    intros c Hc. apply in_split in Hc as (l1 & l2 & Eq).
    rewrite (B _ _ _ Eq). eauto.
Qed.

(** C5. For an entity the enforcer allows, the pipeline calls every processor
    that has [processEntity], in registration order; the first is given the
    entity of the item and each next one the entity the one before it
    returned (a left fold over the chain); what the last one returns is the
    entity recorded in the output entities. *)
Theorem C5_pipeline_fold (this : @LocationReaders W) location entity (st : State) :
  isAllowed (rulesEnforcer this) entity location = true ->
  let m := process_item this (EntityResult location entity) in
  let calls := hook_calls (events m st) in
  map call_idx calls = capable has_processEntity (processors this) /\
  (forall l1 c l2, calls = l1 ++ c :: l2 ->
     call_of c = CProcessEntity (pipeline_result entity l1) location) /\
  (forall c l2, calls = c :: l2 -> call_of c = CProcessEntity entity location) /\
  (forall l1 c1 c2 l2 e', calls = l1 ++ c1 :: c2 :: l2 ->
     call_out c1 = RetEntity e' -> call_of c2 = CProcessEntity e' location) /\
  (forall l c e', calls = l ++ [c] -> call_out c = RetEntity e' ->
     pipeline_result entity calls = e') /\
  pushed_entities (events m st)
  = [{| ee_entity := pipeline_result entity calls; ee_location := location |}] /\
  entities (output (after m st))
  = entities (output st)
      ++ [{| ee_entity := pipeline_result entity calls;
             ee_location := location |}].
Proof.
  intros Hallow m calls. subst m calls.
  destruct (process_item_events this (EntityResult location entity) st)
    as (seg & E & I & C & En & Er & N).
  rewrite E, En.
  change (hook_calls (EvItem (EntityResult location entity) :: seg))
    with (hook_calls seg).
  change (pushed_entities (EvItem (EntityResult location entity) :: seg))
    with (pushed_entities seg).
  destruct (allowed_item_events I Hallow) as (A & B & Pe & Pr & _).
  rewrite Pe.
  split; [exact A | split; [exact B | split; [| split; [| split]]]]; auto.
  - intros c l2 Eq. apply (B [] c l2 Eq).
  - intros l1 c1 c2 l2 e' Eq Ho.
    assert (Eq' : hook_calls seg = (l1 ++ [c1]) ++ c2 :: l2)
      by (rewrite <- app_assoc; exact Eq).
    rewrite (B _ _ _ Eq'), pipeline_result_snoc.
    unfold apply_call. now rewrite Ho.
  - intros l c e' Eq Ho. rewrite Eq, pipeline_result_snoc.
    unfold apply_call. now rewrite Ho.
Qed.

(** *** Faults *)

Lemma engine_emits_incl tr x : In x (engine_emits tr) -> In x (emits tr).
Proof.
  unfold engine_emits, emits. rewrite !in_flat_map.
  intros (ev & Hev & Hx). exists ev. split; auto.
  destruct ev; simpl in *; try tauto. destruct by_; simpl in *; tauto.
Qed.

(** A call that threw is answered by the processor-fault error of the
    [catch] block, at the location of the item. *)
Lemma ItemEvents_fault (this : @LocationReaders W) item seg i c e :
  ItemEvents this item seg ->
  In (i, c, Threw e) (hook_calls seg) ->
  call_location c = item_location item /\
  In (result.generalError (item_location item)
        (fault_message c (name_at (processors this) i) e))
     (engine_emits seg).
Proof.
  intros I Hin.
  destruct (ItemEvents_calls I) as (_ & _ & _ & D & L).
  pose proof (L _ Hin) as Hl. simpl in Hl. split; auto.
  rewrite D. apply in_or_app. left. rewrite <- Hl.
  now apply fault_errors_in.
Qed.

Lemma BodyEvents_fault (this : @LocationReaders W) items body i c e :
  BodyEvents this items body ->
  In (i, c, Threw e) (hook_calls body) ->
  In (result.generalError (call_location c)
        (fault_message c (name_at (processors this) i) e))
     (emits body).
Proof.
  induction 1 as [| item items seg ev I B IH]; simpl; [tauto |].
  rewrite hook_calls_app, emits_app. intros Hin.
  apply in_or_app. apply in_app_or in Hin as [Hin | Hin]; auto.
  left. destruct (ItemEvents_fault _ _ _ I Hin) as [Hl Hf].
  rewrite Hl. now apply engine_emits_incl.
Qed.

(** Short of a handled signal every capable processor is called, and the
    engine emits the unhandled-input error of the item. *)
Lemma ItemEvents_unhandled (this : @LocationReaders W) item seg u :
  ItemEvents this item seg ->
  unhandled_error item = [u] ->
  (forall c, In c (hook_calls seg) -> call_out c <> RetBool true) ->
  map call_idx (hook_calls seg) = item_capable this item /\
  In u (engine_emits seg).
Proof.
  intros I Hu Hn. apply not_handled in Hn.
  destruct (ItemEvents_calls I) as (_ & _ & C & D & _).
  split; auto. rewrite D, Hn, Hu. apply in_or_app. right. now left.
Qed.

(** The chain of an item stops short of its last capable processor only on
    a handled signal. *)
Lemma ItemEvents_chain (this : @LocationReaders W) item seg :
  ItemEvents this item seg ->
  map call_idx (hook_calls seg) = item_capable this item \/
  exists l c, hook_calls seg = l ++ [c] /\ call_out c = RetBool true.
Proof.
  intros I. destruct (ItemEvents_calls I) as (_ & B & C & _).
  destruct (existsb handled (hook_calls seg)) eqn:H; [right | left; auto].
  apply existsb_exists in H as (c & Hc & Hh).
  apply in_split in Hc as (l1 & l2 & Eq).
  pose proof (B _ _ _ Eq Hh) as ->.
  exists l1, c. split; auto. now apply handled_true.
Qed.

Lemma read_item (this : @LocationReaders W) location (w : W) rd item seg :
  In rd (rounds_of (trace (snd (run_read this location w)))) ->
  In (item, seg) (item_runs (round_body rd)) ->
  ItemEvents this item seg /\
  (forall x, In x (emits seg) -> In x (emits (round_body rd))) /\
  (forall x, In x (pushed_entities seg) ->
     In x (entities (output (snd (run_read this location w))))) /\
  (forall x, In x (pushed_errors seg) ->
     In x (errors (output (snd (run_read this location w))))).
Proof.
  intros Hrd Hin.
  destruct (read_round this location w rd Hrd) as [_ B].
  destruct (read_pushed this location w rd Hrd) as [Pr Pe].
  destruct (BodyEvents_item_runs B) as (_ & _ & I).
  split; [now apply I | split; [| split]]; intros x Hx.
  - eapply BodyEvents_item_incl; eauto using emits_app.
  - apply Pe. eapply BodyEvents_item_incl; eauto using pushed_entities_app.
  - apply Pr. eapply BodyEvents_item_incl; eauto using pushed_errors_app.
Qed.




(** *** The rounds of [read] *)

Lemma read_rounds_events (this : @LocationReaders W) location (w : W) :
  let tr := trace (snd (run_read this location w)) in
  dispatched (flat_map round_events (rounds_of tr))
  = flat_map round_items (rounds_of tr) /\
  pushed_errors (flat_map round_events (rounds_of tr))
  = flat_map (item_errors this) (flat_map round_items (rounds_of tr)) /\
  warnings (flat_map round_events (rounds_of tr)) = [] /\
  discarded (flat_map round_events (rounds_of tr)) = [].
Proof.
  apply rounds_events_facts. intros rd Hrd.
  now destruct (read_round this location w rd Hrd).
Qed.

Lemma split_at_last {X} (pre : list X) x post pre' y :
  pre ++ x :: post = pre' ++ [y] -> post = [] \/ In x pre'.
Proof.
  destruct post as [| z post] using rev_ind; auto.
  intros E. right.
  change (pre ++ x :: post ++ [z]) with (pre ++ (x :: post) ++ [z]) in E.
  rewrite app_assoc in E. apply app_inj_tail in E as [<- _].
  apply in_elt.
Qed.

Lemma read_dispatched (this : @LocationReaders W) location (w : W) :
  dispatched (trace (snd (run_read this location w)))
  = flat_map round_items (rounds_of (trace (snd (run_read this location w)))).
Proof.
  destruct (read_trace this location w) as (_ & _ & _ & L).
  cbv zeta in L.
  destruct (read_rounds_events this location w) as (D & _).
  cbv zeta in D.
  destruct (LoopEvents_end L) as [(pre & last & _ & _ & _ & E)
                                 | (_ & _ & E)];
    rewrite E at 1; [exact D |].
  rewrite dispatched_app, D. simpl. apply app_nil_r.
Qed.

(** What a dispatched item pushes to the output errors is in the errors
    returned. *)
Lemma read_item_errors (this : @LocationReaders W) location (w : W) item x :
  In item (dispatched (trace (snd (run_read this location w)))) ->
  In x (item_errors this item) ->
  In x (errors (output (snd (run_read this location w)))).
Proof.
  rewrite read_dispatched, in_flat_map. intros (rd & Hrd & Hin) Hx.
  destruct (read_round this location w rd Hrd) as [_ B].
  destruct (BodyEvents_clean B) as (_ & _ & _ & _ & P).
  apply (read_pushed this location w rd Hrd). rewrite P.
  apply in_flat_map. eauto.
Qed.

(** C8. The pending set of round 0 is the one [LocationResult] seeded from
    the input, not optional; the rounds are numbered in sequence; each round
    dispatches its pending set, whole and in order; the pending set of the
    round after it is what was emitted during it, in emission order; nothing
    is dispatched outside the rounds. *)
Theorem C8_round_step_invariant (this : @LocationReaders W) location (w : W) :
  let tr := trace (snd (run_read this location w)) in
  (exists body rest,
     rounds_of tr = (0, [LocationResult location false], body) :: rest) /\
  (forall n rd, nth_error (rounds_of tr) n = Some rd ->
     round_depth rd = n /\ dispatched (round_body rd) = round_items rd) /\
  (forall n r1 r2, nth_error (rounds_of tr) n = Some r1 ->
     nth_error (rounds_of tr) (S n) = Some r2 ->
     round_items r2 = emits (round_body r1)) /\
  dispatched tr = flat_map round_items (rounds_of tr).
Proof.
  intros tr. subst tr.
  destruct (read_trace this location w) as (_ & _ & _ & L).
  cbv zeta in L.
  destruct (LoopEvents_rounds L) as (_ & A & B & C).
  destruct (read_rounds_events this location w) as (D & _).
  cbv zeta in D.
  split; [apply C; unfold MAX_DEPTH; lia | split; [| split; [exact B |]]].
  - intros n rd Hn. destruct (A n rd Hn) as [Hd Hb].
    split; [exact Hd |]. now destruct (BodyEvents_clean Hb) as (_ & ? & _).
  - apply read_dispatched.
Qed.

(** C7. In every round, the first included: when the pass over the pending
    set emits nothing, [read] returns at once with the output accumulated so
    far; no round follows, no warning is logged, and the errors returned are
    those of the items of the rounds, with no recursion-limit error. *)
Theorem C7_no_new_work_returns (this : @LocationReaders W) location (w : W) :
  let r := run_read this location w in
  let tr := trace (snd r) in
  forall pre rd post,
    rounds_of tr = pre ++ rd :: post ->
    emits (round_body rd) = [] ->
    post = [] /\
    fst r = Normal (output (snd r)) /\
    tr = flat_map round_events (rounds_of tr) /\
    warnings tr = [] /\
    discarded tr = [] /\
    errors (output (snd r))
    = flat_map (item_errors this) (flat_map round_items (rounds_of tr)) /\
    entities (output (snd r)) = pushed_entities tr.
Proof.
  intros r tr pre rd post Hrs He. subst r tr.
  destruct (read_trace this location w) as (E & En & Er & L).
  cbv zeta in *.
  destruct (read_rounds_events this location w) as (_ & Pr & Wn & Dc).
  cbv zeta in *.
  assert (Hend : post = [] /\
                 trace (snd (run_read this location w))
                 = flat_map round_events
                     (rounds_of (trace (snd (run_read this location w))))).
  { destruct (LoopEvents_end L) as [(pre' & last & Hrs' & _ & F & Ev)
                                   | (_ & F & _)].
    - split; [| exact Ev].
      rewrite Hrs in Hrs'. apply split_at_last in Hrs' as [? | Hin]; auto.
      rewrite Forall_forall in F. now destruct (F rd Hin).
    - rewrite Forall_forall in F. destruct (F rd); auto.
      rewrite Hrs. apply in_elt. }
  destruct Hend as [Hp Ht].
  split; [exact Hp | split; [now rewrite E at 1 |]].
  split; [exact Ht |].
  rewrite Er. rewrite Ht at 1 2 3. auto.
Qed.

(** *** The bound *)

(** When the first processor of the chain emits a location from every
    [readLocation], a pass over a pending set with a location emits one. *)
Lemma looper_item (this : @LocationReaders W) p rest f location optional seg :
  processors this = p :: rest ->
  readLocation p = Some f ->
  (forall l o w', exists l' o', In (LocationResult l' o') (emitted (f l o w'))) ->
  ItemEvents this (LocationResult location optional) seg ->
  exists l' o', In (LocationResult l' o') (emits seg).
Proof.
  intros Hp Hf Hem I.
  inversion I as [? ? ev F | | | |]; subst.
  unfold indexed in F. rewrite Hp in F. simpl in F.
  assert (Hr : reader_of location optional p = Some (f location optional))
    by (unfold reader_of; now rewrite Hf).
  inversion F as [| ? ? ? ? Hn | ? ? ? h w' Hs Ho | ? ? ? h w' ev' Hs Ho F'
                 | ? ? ? h w' e ev' Hs Ho F']; subst;
    try (rewrite Hr in Hn; discriminate);
    rewrite Hr in Hs; inversion Hs; subst;
    destruct (Hem location optional w') as (l' & o' & Hin);
    exists l', o'; simpl; rewrite ?emits_app, emits_emits;
    try apply in_or_app; auto.
Qed.

Lemma looper_body (this : @LocationReaders W) p rest f items body :
  processors this = p :: rest ->
  readLocation p = Some f ->
  (forall l o w', exists l' o', In (LocationResult l' o') (emitted (f l o w'))) ->
  BodyEvents this items body ->
  (exists l o, In (LocationResult l o) items) ->
  exists l' o', In (LocationResult l' o') (emits body).
Proof.
  intros Hp Hf Hem B.
  induction B as [| item items seg ev I B IH]; intros (l & o & Hin);
    [destruct Hin |].
  simpl. rewrite emits_app.
  destruct Hin as [-> | Hin].
  - edestruct looper_item as (l' & o' & H); eauto.
    exists l', o'. apply in_or_app. now left.
  - destruct IH as (l' & o' & H); eauto.
    exists l', o'. apply in_or_app. now right.
Qed.

Lemma looper_loop (this : @LocationReaders W) p rest f location r d items ev :
  processors this = p :: rest ->
  readLocation p = Some f ->
  (forall l o w', exists l' o', In (LocationResult l' o') (emitted (f l o w'))) ->
  LoopEvents this location r d items ev ->
  (exists l o, In (LocationResult l o) items) ->
  List.length (rounds_of ev) = r /\
  warnings ev = [msg_limit location] /\
  exists acc, pushed_errors ev = acc ++ [limit_entry location].
Proof.
  intros Hp Hf Hem. revert d items ev.
  induction r as [| r IH]; intros d items ev L Hin.
  - apply LoopEvents_limit in L. subst ev. simpl.
    repeat split; auto. now exists [].
  - apply LoopEvents_step in L
      as (body & ev' & B & -> & Rs & [[E ->] | [E L]]).
    + edestruct looper_body as (l' & o' & H); eauto.
      rewrite E in H. destruct H.
    + assert (Hnext : exists l o, In (LocationResult l o) (emits body))
        by (eapply looper_body; eauto).
      destruct (IH _ _ _ L Hnext) as (Len & Wn & acc & Pr).
      destruct (BodyEvents_clean B) as (_ & _ & Wb & _).
      rewrite Rs. simpl. rewrite warnings_app, pushed_errors_app, Wb, Wn, Pr, Len.
      repeat split; auto. exists (pushed_errors body ++ acc).
      now rewrite app_assoc.
Qed.

(** C3. [read] completes after at most [MAX_DEPTH] rounds.  When the last
    round still emitted items, it was round number [MAX_DEPTH]: what it
    emitted is dropped without being dispatched, a warning is logged, one
    error at the input location, that says the bound was reached, is
    appended to the errors accumulated, and this output is returned.  A
    chain whose first processor emits a location from every [readLocation]
    runs exactly [MAX_DEPTH] rounds and ends with that error. *)
Theorem C3_bounded_rounds (this : @LocationReaders W) location (w : W) :
  let r := run_read this location w in
  let tr := trace (snd r) in
  fst r = Normal (output (snd r)) /\
  List.length (rounds_of tr) <= MAX_DEPTH /\
  (forall pre rd,
     rounds_of tr = pre ++ [rd] ->
     emits (round_body rd) <> [] ->
     List.length (rounds_of tr) = MAX_DEPTH /\
     tr = flat_map round_events (rounds_of tr)
            ++ [EvDiscard (emits (round_body rd));
                EvLog LWarn (msg_limit location);
                EvError (limit_entry location)] /\
     dispatched tr = flat_map round_items (rounds_of tr) /\
     discarded tr = [emits (round_body rd)] /\
     warnings tr = [msg_limit location] /\
     errors (output (snd r))
     = flat_map (item_errors this) (flat_map round_items (rounds_of tr))
         ++ [limit_entry location] /\
     entities (output (snd r))
     = pushed_entities (flat_map round_events (rounds_of tr))) /\
  (forall p rest f,
     processors this = p :: rest ->
     readLocation p = Some f ->
     (forall l o w', exists l' o',
        In (LocationResult l' o') (emitted (f l o w'))) ->
     List.length (rounds_of tr) = MAX_DEPTH /\
     warnings tr = [msg_limit location] /\
     exists acc, errors (output (snd r)) = acc ++ [limit_entry location]).
Proof.
  intros r tr. subst r tr.
  destruct (read_trace this location w) as (E & En & Er & L).
  cbv zeta in *.
  destruct (LoopEvents_rounds L) as (Len & _).
  destruct (read_rounds_events this location w) as (Dp & Pr & Wn & Dc).
  cbv zeta in *.
  split; [now rewrite E at 1 | split; [exact Len | split]].
  - intros pre rd Hrs He.
    destruct (LoopEvents_end L) as [(pre' & last & Hrs' & He' & _)
                                   | (Hlen & _ & Ev)].
    { rewrite Hrs in Hrs'. apply app_inj_tail in Hrs' as [_ <-].
      now destruct He. }
    assert (Hl : last_emitted
                   (rounds_of (trace (snd (run_read this location w))))
                   [result.location location false]
                 = emits (round_body rd)).
    { unfold last_emitted. rewrite Hrs, map_app. simpl. apply last_last. }
    rewrite Hl in Ev.
    split; [exact Hlen | split; [exact Ev |]].
    rewrite En, Er.
    remember (rounds_of (trace (snd (run_read this location w)))) as rs.
    rewrite Ev.
    rewrite dispatched_app, discarded_app, warnings_app, pushed_errors_app,
      pushed_entities_app, Dp, Pr, Wn, Dc.
    simpl. rewrite !app_nil_r. auto 6.
  - intros p rest f Hp Hf Hem.
    rewrite Er. eapply looper_loop; eauto.
    exists location, false. now left.
Qed.


End Claims.

(* ================================================================== *)
(** ** The claims on concrete runs *)

Section Runs.

Import Examples.



(** C2 fails as stated: a rejected entity leaves its policy error in the
    output errors, but nothing is emitted. *)
Lemma C2_counterexample :
  let eng := engine [Reader] in
  let m := process_item eng (EntityResult (file "a") user) in
  isAllowed (rulesEnforcer eng) user (file "a") = false /\
  emits (events m start) = [] /\
  newItems (after m start) = [] /\
  errors (output (after m start)) = [policy_entry user (file "a")].
Proof. vm_compute. repeat split. Qed.

(** C2 on a rejected and on an allowed entity. *)
Lemma C2_witness :
  let eng := engine [Tagger "Owner" "owner"] in
  let rejected := process_item eng (EntityResult (file "a") user) in
  let allowed := process_item eng (EntityResult (file "a") (component "v1")) in
  isAllowed (rulesEnforcer eng) user (file "a") = false /\
  isAllowed (rulesEnforcer eng) (component "v1") (file "a") = true /\
  entities (output (after rejected start)) = [] /\
  errors (output (after rejected start)) = [policy_entry user (file "a")] /\
  entities (output (after allowed start))
  = [{| ee_entity := tag "owner" "Owner" (component "v1");
        ee_location := file "a" |}].
Proof.
  intros eng rejected allowed.
  assert (H1 : isAllowed (rulesEnforcer eng) user (file "a") = false)
    by reflexivity.
  assert (H2 : isAllowed (rulesEnforcer eng) (component "v1") (file "a") = true)
    by reflexivity.
  destruct (C2_policy_gate eng (file "a") user start) as (_ & R & _).
  destruct (R H1) as (_ & Er & _ & _ & _ & _ & En).
  destruct (C2_policy_gate eng (file "a") (component "v1") start)
    as (_ & _ & A).
  destruct (A H2) as (_ & _ & _ & En' & _).
  split; [exact H1 | split; [exact H2 | split; [| split]]].
  - exact En.
  - exact Er.
  - subst allowed. rewrite En'. vm_compute. reflexivity.
Defined.

(** C3 on a chain that never stops emitting locations: ten rounds, then
    the warning and the recursion-limit error. *)
Lemma C3_witness :
  let eng := engine [Grower] in
  let r := run_read eng (file "a") tt in
  let rs := rounds_of (trace (snd r)) in
  let rd : Round := last rs (0, [], []) in
  processors eng = [Grower] /\
  readLocation Grower = Some grow /\
  rs = removelast rs ++ [rd] /\
  emits (round_body rd) <> [] /\
  fst r = Normal (output (snd r)) /\
  List.length rs = 10 /\
  discarded (trace (snd r)) = [emits (round_body rd)] /\
  warnings (trace (snd r)) = ["Max recursion depth 10 reached for file a"] /\
  exists acc, errors (output (snd r)) = acc ++ [limit_entry (file "a")].
Proof.
  intros eng r rs rd.
  assert (H1 : processors eng = [Grower]) by reflexivity.
  assert (H2 : readLocation Grower = Some grow) by reflexivity.
  assert (H3 : forall l o (w' : unit), exists l' o',
                 In (LocationResult l' o') (emitted (grow l o w')))
    by (intros l o w'; eexists; eexists; left; reflexivity).
  assert (H4 : rs = removelast rs ++ [rd]) by (vm_compute; reflexivity).
  assert (H5 : emits (round_body rd) <> []) by (vm_compute; discriminate).
  destruct (C3_bounded_rounds eng (file "a") tt) as (C & _ & B & L).
  destruct (B _ _ H4 H5) as (_ & _ & _ & D & _).
  destruct (L _ _ _ H1 H2 H3) as (Len & Wn & Acc).
  repeat (split; [assumption |]). exact Acc.
Defined.

(** C4 on a chain that declines the location and on one that handles it
    at once. *)
Lemma C4_witness :
  let declined := process_item (engine [idle "Idle"; Grower])
                    (LocationResult (file "a") false) in
  let handled := process_item (engine [Sink; Grower])
                   (LocationResult (file "a") false) in
  let unhandled := result.inputError (file "a") (msg_unreadable (file "a")) in
  (forall c, In c (hook_calls (events declined start)) ->
     call_out c = RetBool false) /\
  hook_calls (events handled start)
  = [] ++ (0, CReadLocation (file "a") false, RetBool true) :: [] /\
  engine_emits (events declined start) = [unhandled] /\
  map call_idx (hook_calls (events handled start)) = [0] /\
  ~ In unhandled (engine_emits (events handled start)).
Proof.
  intros declined handled unhandled.
  assert (H1 : forall c, In c (hook_calls (events declined start)) ->
                 call_out c = RetBool false)
    by (vm_compute; intros c [<- | []]; reflexivity).
  assert (H2 : hook_calls (events handled start)
               = [] ++ (0, CReadLocation (file "a") false, RetBool true) :: [])
    by (vm_compute; reflexivity).
  destruct (C4_first_match_wins (engine [idle "Idle"; Grower]) (file "a")
              false [] start) as (_ & (_ & _ & _ & _ & D & _) & _).
  destruct (C4_first_match_wins (engine [Sink; Grower]) (file "a")
              false [] start) as (_ & (_ & _ & S & _ & _ & N) & _).
  split; [exact H1 | split; [exact H2 | split; [exact (D H1) | split]]].
  - fold handled in S. rewrite H2. reflexivity.
  - apply N. exists (0, CReadLocation (file "a") false, RetBool true).
    fold handled. rewrite H2. split; [now left | reflexivity].
Defined.

(** C5 on a chain of two transformers around a processor without
    [processEntity]. *)
Lemma C5_witness :
  let eng := engine [Tagger "A" "a"; idle "Idle"; Tagger "B" "b"] in
  let m := process_item eng (EntityResult (file "x") (component "v1")) in
  isAllowed (rulesEnforcer eng) (component "v1") (file "x") = true /\
  map call_idx (hook_calls (events m start)) = [0; 2] /\
  entities (output (after m start))
  = [{| ee_entity := tag "b" "B" (tag "a" "A" (component "v1"));
        ee_location := file "x" |}].
Proof.
  intros eng m.
  assert (H : isAllowed (rulesEnforcer eng) (component "v1") (file "x") = true)
    by reflexivity.
  destruct (C5_pipeline_fold eng (file "x") (component "v1") start H)
    as (A & _ & _ & _ & _ & _ & En).
  split; [exact H | split].
  - exact A.
  - subst m. rewrite En. vm_compute. reflexivity.
Defined.



(** C7 on a first round that emits nothing. *)
Lemma C7_witness :
  let r := run_read (engine [Sink]) (file "a") tt in
  let rd : Round := hd (0, [], []) (rounds_of (trace (snd r))) in
  rounds_of (trace (snd r)) = [] ++ rd :: [] /\
  round_depth rd = 0 /\
  emits (round_body rd) = [] /\
  fst r = Normal {| entities := []; errors := [] |} /\
  warnings (trace (snd r)) = [] /\
  discarded (trace (snd r)) = [].
Proof.
  intros r rd.
  assert (H1 : rounds_of (trace (snd r)) = [] ++ rd :: [])
    by (vm_compute; reflexivity).
  assert (H2 : emits (round_body rd) = []) by (vm_compute; reflexivity).
  destruct (C7_no_new_work_returns (engine [Sink]) (file "a") tt [] rd [] H1 H2)
    as (_ & C & _ & Wn & Dc & Er & En).
  split; [exact H1 | split; [reflexivity | split; [exact H2 | split]]].
  - fold r in C. rewrite C. vm_compute. reflexivity.
  - split; [exact Wn | exact Dc].
Defined.

(** C8 on the two rounds of a read that finds no reader. *)
Lemma C8_witness :
  let r := run_read (engine [Faulty]) (file "a") tt in
  let rs := rounds_of (trace (snd r)) in
  let r0 : Round := nth 0 rs (0, [], []) in
  let r1 : Round := nth 1 rs (0, [], []) in
  nth_error rs 0 = Some r0 /\
  nth_error rs 1 = Some r1 /\
  round_items r0 = [LocationResult (file "a") false] /\
  round_depth r1 = 1 /\
  round_items r1 = emits (round_body r0) /\
  dispatched (round_body r1) = round_items r1.
Proof.
  intros r rs r0 r1.
  assert (H0 : nth_error rs 0 = Some r0) by (vm_compute; reflexivity).
  assert (H1 : nth_error rs 1 = Some r1) by (vm_compute; reflexivity).
  destruct (C8_round_step_invariant (engine [Faulty]) (file "a") tt)
    as ((body & rest & Hd) & N & St & _).
  destruct (N 1 r1 H1) as [D1 P1].
  split; [exact H0 | split; [exact H1 | split; [| split; [exact D1 | split]]]].
  - subst r0 rs r. rewrite Hd. reflexivity.
  - exact (St 0 r0 r1 H0 H1).
  - exact P1.
Defined.



End Runs.

(* ================================================================== *)
(** ** Further properties of the engine *)

Section Further.

Context {W : Type}.

#[local] Abbreviation State := (@State W).

Lemma capable_of_indexed_from has k (l : list (@LocationProcessor W)) :
  Forall (fun i => k <= i) (capable_of has (combine (seq k (List.length l)) l)) /\
  NoDup (capable_of has (combine (seq k (List.length l)) l)).
Proof.
  revert k. induction l as [| p l IH]; intros k; simpl.
  - split; constructor.
  - destruct (IH (S k)) as [F N]. unfold capable_of in *. simpl.
    destruct (has p); simpl.
    + split.
      * constructor; [lia |]. eapply Forall_impl; [| exact F].
        simpl; intros; lia.
      * constructor; auto. intros Hin.
        rewrite Forall_forall in F. apply F in Hin. lia.
    + split; auto. eapply Forall_impl; [| exact F]. simpl; intros; lia.
Qed.

Lemma capable_NoDup has (ps : list (@LocationProcessor W)) :
  NoDup (capable has ps).
Proof. apply (capable_of_indexed_from has 0 ps). Qed.

Lemma capable_In has (ps : list (@LocationProcessor W)) i :
  In i (capable has ps) ->
  exists p, nth_error ps i = Some p /\ has p = true.
Proof.
  unfold capable, capable_of. rewrite in_map_iff.
  intros ([j p] & <- & Hin). apply filter_In in Hin as [Hin Hh].
  exists p. split; auto. now apply registered_indexed.
Qed.

Lemma capable_length has (ps : list (@LocationProcessor W)) :
  List.length (capable has ps) <= List.length ps.
Proof.
  unfold capable, capable_of, indexed. rewrite length_map.
  etransitivity; [apply filter_length_le |].
  rewrite length_combine, length_seq. lia.
Qed.

Lemma item_capable_facts (this : @LocationReaders W) item :
  NoDup (item_capable this item) /\
  List.length (item_capable this item) <= List.length (processors this).
Proof.
  destruct item as [l o | l d | l e | l e]; simpl;
    try (split; [apply capable_NoDup | apply capable_length]).
  destruct (isAllowed (rulesEnforcer this) e l);
    [split; [apply capable_NoDup | apply capable_length] |].
  split; [constructor | simpl; lia].
Qed.

Lemma In_firstn {X} k (l : list X) x : In x (firstn k l) -> In x l.
Proof.
  revert k. induction l as [| y l IH]; intros [| k]; simpl; try tauto.
  intros [-> | H]; eauto.
Qed.

Lemma NoDup_firstn {X} k (l : list X) : NoDup l -> NoDup (firstn k l).
Proof.
  revert k. induction l as [| x l IH]; intros [| k] N; simpl;
    try constructor.
  - inversion N; subst. intros Hin. apply In_firstn in Hin. contradiction.
  - inversion N; subst. now apply IH.
Qed.

(** X6. Whatever the item and whatever the hooks do, no processor is called
    twice for the same item: its handling costs at most as many hook calls
    as there are processors, each by a processor that has the hook. *)
Theorem item_calls_each_processor_once (this : @LocationReaders W) item
    (st : State) :
  let calls := hook_calls (events (process_item this item) st) in
  NoDup (map call_idx calls) /\
  List.length calls <= List.length (processors this) /\
  (forall c, In c calls ->
     call_idx c < List.length (processors this) /\
     In (call_idx c) (item_capable this item)).
Proof.
  intros calls. subst calls.
  destruct (process_item_events this item st) as (seg & E & I & _).
  rewrite E.
  change (hook_calls (EvItem item :: seg)) with (hook_calls seg).
  destruct (ItemEvents_calls I) as ([k A] & _).
  destruct (item_capable_facts this item) as [N L].
  assert (Hin : forall c, In c (hook_calls seg) ->
                  In (call_idx c) (item_capable this item)).
  { intros c Hc. apply (in_map call_idx) in Hc. rewrite A in Hc.
    now apply In_firstn in Hc. }
  split; [rewrite A; now apply NoDup_firstn | split].
  - rewrite <- (length_map call_idx), A, length_firstn. lia.
  - intros c Hc. split; [| now apply Hin].
    pose proof (Hin c Hc) as Hi.
    destruct item as [l o | l d | l e | l e]; simpl in Hi;
      try (destruct (isAllowed (rulesEnforcer this) e l); [| destruct Hi]);
      apply capable_In in Hi as (p & Hn & _);
      apply nth_error_Some; congruence.
Qed.


(** *** What the output is made of *)

Lemma in_proj_flat_map {X Y} (proj : list Event -> list X)
    (h : Y -> list Event) (l : list Y) x :
  (forall a b, proj (a ++ b) = proj a ++ proj b) ->
  proj [] = [] ->
  In x (proj (flat_map h l)) -> exists y, In y l /\ In x (proj (h y)).
Proof.
  intros Happ Hnil. induction l as [| z l IH]; simpl.
  - rewrite Hnil. intros [].
  - rewrite Happ. intros H. apply in_app_or in H as [H | H]; eauto.
    destruct (IH H) as (y & Hy & Hx). eauto.
Qed.

(** The trace of [read] is the events of its rounds, then nothing or the
    three events of the bound. *)
Lemma read_trace_rounds (this : @LocationReaders W) location (w : W) :
  let tr := trace (snd (run_read this location w)) in
  exists tail,
    tr = flat_map round_events (rounds_of tr) ++ tail /\
    (tail = [] \/
     exists items, tail = [EvDiscard items; EvLog LWarn (msg_limit location);
                           EvError (limit_entry location)]).
Proof.
  destruct (read_trace this location w) as (_ & _ & _ & L). cbv zeta in *.
  destruct (LoopEvents_end L) as [(pre & last & _ & _ & _ & E) | (_ & _ & E)].
  - exists []. rewrite app_nil_r. auto.
  - eexists. split; [exact E | right; eauto].
Qed.

(** X4. The errors returned are those of the items dispatched, in dispatch
    order (one entry per error item, one policy error per rejected entity),
    followed by the recursion-limit error when the bound was reached, which
    happens at most once and is when the warning is logged: the hooks bear
    on the errors only through the items they emit. *)
Theorem output_errors_follow_the_dispatch (this : @LocationReaders W)
    location (w : W) :
  let r := run_read this location w in
  let tr := trace (snd r) in
  errors (output (snd r))
  = flat_map (item_errors this) (dispatched tr)
      ++ map (fun _ => limit_entry location) (discarded tr) /\
  List.length (discarded tr) <= 1 /\
  warnings tr = map (fun _ => msg_limit location) (discarded tr).
Proof.
  intros r tr. subst r tr.
  destruct (read_trace this location w) as (_ & _ & Er & _). cbv zeta in *.
  destruct (read_rounds_events this location w) as (_ & Pr & Wn & Dc).
  cbv zeta in *.
  destruct (read_trace_rounds this location w) as (tail & E & Ht).
  cbv zeta in *.
  rewrite Er, read_dispatched.
  remember (rounds_of (trace (snd (run_read this location w)))) as rs.
  rewrite E, pushed_errors_app, discarded_app, warnings_app, Pr, Wn, Dc.
  destruct Ht as [-> | (items & ->)]; simpl; auto.
Qed.

(** The entities that the handling of an item records. *)
Lemma ItemEvents_entities (this : @LocationReaders W) item seg :
  ItemEvents this item seg ->
  map ee_location (pushed_entities seg)
  = map ee_location (allowed_entities this [item]) /\
  (forall x, In x (pushed_entities seg) ->
     exists ent, item = EntityResult (ee_location x) ent /\
       isAllowed (rulesEnforcer this) ent (ee_location x) = true /\
       ee_entity x = pipeline_result ent (hook_calls seg)) /\
  (capable has_processEntity (processors this) = [] ->
   pushed_entities seg = allowed_entities this [item]).
Proof.
  intros I.
  destruct item as [l o | l d | l ent | l err].
  - inversion I as [? ? ev F | | | |]; subst.
    apply FirstMatch_chain_events, chain_events_clean in F
      as (_ & _ & Pe & _).
    simpl. rewrite Pe. repeat split; auto. intros ? [].
  - inversion I as [| ? ? ev F | | |]; subst.
    apply FirstMatch_chain_events, chain_events_clean in F
      as (_ & _ & Pe & _).
    simpl. rewrite Pe. repeat split; auto. intros ? [].
  - destruct (isAllowed (rulesEnforcer this) ent l) eqn:Hallow.
    + destruct (allowed_item_events I Hallow) as (A & _ & Pe & _).
      unfold allowed_entities. simpl. rewrite Pe, Hallow. simpl.
      split; [reflexivity | split].
      * intros x [<- | []]. simpl. eauto.
      * intros Hc. rewrite Hc in A. apply map_eq_nil in A.
        rewrite A. reflexivity.
    + rewrite (rejected_item_events I Hallow).
      unfold allowed_entities. simpl. rewrite Hallow.
      repeat split; auto. intros ? [].
  - inversion I as [| | | | ? ? ev N]; subst.
    apply Notify_chain_events, chain_events_clean in N
      as (_ & _ & Pe & _).
    simpl. rewrite pushed_entities_app, Pe. simpl.
    repeat split; auto. intros ? [].
Qed.

Lemma allowed_entities_app (this : @LocationReaders W) a b :
  allowed_entities this (a ++ b)
  = allowed_entities this a ++ allowed_entities this b.
Proof. apply flat_map_app. Qed.

Lemma BodyEvents_entities (this : @LocationReaders W) items body :
  BodyEvents this items body ->
  map ee_location (pushed_entities body)
  = map ee_location (allowed_entities this items) /\
  (capable has_processEntity (processors this) = [] ->
   pushed_entities body = allowed_entities this items).
Proof.
  induction 1 as [| item items seg ev I B [IH1 IH2]]; [simpl; auto |].
  destruct (ItemEvents_entities I) as (A & _ & C).
  change (item :: items) with ([item] ++ items).
  change (pushed_entities (EvItem item :: seg ++ ev))
    with (pushed_entities (seg ++ ev)).
  rewrite pushed_entities_app, allowed_entities_app, !map_app, A, IH1.
  split; [reflexivity |].
  intros Hc. now rewrite C, IH2.
Qed.

Lemma rounds_entities (this : @LocationReaders W) (rs : list Round) :
  (forall rd, In rd rs -> BodyEvents this (round_items rd) (round_body rd)) ->
  map ee_location (pushed_entities (flat_map round_events rs))
  = map ee_location (allowed_entities this (flat_map round_items rs)) /\
  (capable has_processEntity (processors this) = [] ->
   pushed_entities (flat_map round_events rs)
   = allowed_entities this (flat_map round_items rs)).
Proof.
  induction rs as [| rd rs IH]; [simpl; auto |].
  intros H. destruct IH as [IH1 IH2]; [intros; apply H; now right |].
  destruct (BodyEvents_entities (H rd (or_introl eq_refl))) as [A B].
  cbn [flat_map].
  rewrite pushed_entities_app, allowed_entities_app, !map_app, IH1.
  change (pushed_entities (round_events rd))
    with (pushed_entities (round_body rd)).
  rewrite A. split; [reflexivity |].
  intros Hc. now rewrite IH2, B.
Qed.

(** X3. Every entity of the output went through the gate: the locations of
    the output entities are those of the dispatched entities that the
    enforcer allowed, in dispatch order; each output entity is the result of
    the pipeline on such an entity, the enforcer having seen the entity as
    it was before the pipeline; and when no processor has [processEntity]
    the output entities are the allowed dispatched entities themselves. *)
Theorem output_entities_pass_the_gate (this : @LocationReaders W)
    location (w : W) :
  let r := run_read this location w in
  let tr := trace (snd r) in
  map ee_location (entities (output (snd r)))
  = map ee_location (allowed_entities this (dispatched tr)) /\
  (forall x, In x (entities (output (snd r))) ->
     exists rd ent seg,
       In rd (rounds_of tr) /\
       In (EntityResult (ee_location x) ent, seg) (item_runs (round_body rd)) /\
       isAllowed (rulesEnforcer this) ent (ee_location x) = true /\
       ee_entity x = pipeline_result ent (hook_calls seg)) /\
  (capable has_processEntity (processors this) = [] ->
   entities (output (snd r)) = allowed_entities this (dispatched tr)).
Proof.
  intros r tr. subst r tr.
  destruct (read_trace this location w) as (_ & En & _ & _). cbv zeta in *.
  destruct (read_trace_rounds this location w) as (tail & E & Ht).
  cbv zeta in *.
  assert (HB : forall rd,
             In rd (rounds_of (trace (snd (run_read this location w)))) ->
             BodyEvents this (round_items rd) (round_body rd))
    by (intros rd Hrd; now destruct (read_round this location w rd Hrd)).
  destruct (rounds_entities _ HB) as [A B].
  assert (Ep : pushed_entities (trace (snd (run_read this location w)))
               = pushed_entities (flat_map round_events
                   (rounds_of (trace (snd (run_read this location w)))))).
  { remember (rounds_of (trace (snd (run_read this location w)))) as rs.
    rewrite E, pushed_entities_app.
    destruct Ht as [-> | (items & ->)]; simpl; now rewrite app_nil_r. }
  rewrite En, read_dispatched, Ep.
  split; [exact A | split; [| exact B]].
  intros x Hx.
  apply (in_proj_flat_map pushed_entities round_events) in Hx
    as (rd & Hrd & Hx); [| apply pushed_entities_app | reflexivity].
  change (pushed_entities (round_events rd))
    with (pushed_entities (round_body rd)) in Hx.
  destruct (BodyEvents_item_runs (HB rd Hrd)) as (Eb & _ & Hi).
  rewrite Eb in Hx.
  apply (in_proj_flat_map pushed_entities run_events) in Hx
    as ([item seg] & Hrun & Hx); [| apply pushed_entities_app | reflexivity].
  change (pushed_entities (run_events (item, seg)))
    with (pushed_entities seg) in Hx.
  destruct (ItemEvents_entities (Hi _ _ Hrun)) as (_ & P & _).
  destruct (P x Hx) as (ent & -> & Hallow & Hent).
  exists rd, ent, seg. auto.
Qed.

(** *** What the hooks are called on *)

Lemma ItemEvents_called_for (this : @LocationReaders W) item seg c :
  ItemEvents this item seg ->
  In c (hook_calls seg) ->
  called_for this (call_of c) item /\
  exists p, nth_error (processors this) (call_idx c) = Some p /\
            has_hook (call_of c) p = true.
Proof.
  intros I Hc.
  destruct (ItemEvents_calls I) as ([k A] & _).
  assert (Hi : In (call_idx c) (item_capable this item)).
  { apply (in_map call_idx) in Hc. rewrite A in Hc.
    now apply In_firstn in Hc. }
  pose proof (registered_indexed (processors this)) as R.
  destruct item as [l o | l d | l ent | l err]; simpl in Hi.
  - inversion I as [? ? ev F | | | |]; subst.
    assert (Hh : forall p : @LocationProcessor W, has_readLocation p
              = match reader_of l o p with
                | Some _ => true | None => false end).
    { intros p. unfold has_readLocation, reader_of.
      now destruct (readLocation p). }
    destruct (FirstMatch_calls has_readLocation Hh eq_refl
                (fun _ _ => eq_refl) R F) as (_ & _ & _ & _ & E).
    rewrite (E c Hc). simpl. split; auto. now apply capable_In.
  - inversion I as [| ? ? ev F | | |]; subst.
    assert (Hh : forall p : @LocationProcessor W, has_parseData p
              = match parser_of d l p with
                | Some _ => true | None => false end).
    { intros p. unfold has_parseData, parser_of.
      now destruct (parseData p). }
    destruct (FirstMatch_calls has_parseData Hh eq_refl
                (fun _ _ => eq_refl) R F) as (_ & _ & _ & _ & E).
    rewrite (E c Hc). simpl. split; auto. now apply capable_In.
  - destruct (isAllowed (rulesEnforcer this) ent l) eqn:Hallow;
      [| destruct Hi].
    destruct (allowed_item_events I Hallow) as (_ & B & _).
    apply in_split in Hc as (l1 & l2 & Eq).
    rewrite (B _ _ _ Eq). simpl. split; auto. now apply capable_In.
  - inversion I as [| | | | ? ? ev N]; subst.
    destruct (Notify_calls R N) as (_ & _ & _ & F).
    assert (Hc' : In c (hook_calls ev)).
    { simpl in Hc. rewrite hook_calls_app in Hc. simpl in Hc.
      now rewrite app_nil_r in Hc. }
    rewrite (F c Hc'). simpl. split; auto. now apply capable_In.
Qed.

Lemma LoopEvents_dispatched (this : @LocationReaders W) location r d items ev :
  LoopEvents this location r d items ev ->
  forall item, In item (dispatched ev) ->
  In item items \/ In item (emits ev).
Proof.
  revert d items ev. induction r as [| r IH]; intros d items ev L item Hin.
  - apply LoopEvents_limit in L. subst ev. destruct Hin.
  - apply LoopEvents_step in L
      as (body & ev' & B & -> & _ & [[E ->] | [E L]]);
      destruct (BodyEvents_clean B) as (_ & D & _);
      simpl in Hin; rewrite dispatched_app, D in Hin;
      apply in_app_or in Hin as [Hin | Hin]; auto.
    + destruct Hin.
    + right. simpl. rewrite emits_app. apply in_or_app.
      destruct (IH _ _ _ L item Hin); auto.
Qed.

(** X5. The hooks are called only on work that was dispatched, and the
    engine dispatches only the input location and what was emitted: every
    hook call of a [read] is made on a processor that has the hook, for a
    dispatched item of the variant of the hook, with the location (and the
    optional flag, the data or the error) of that item; [processEntity] is
    called only for an entity item that the enforcer allowed. *)
Theorem hooks_see_only_dispatched_work (this : @LocationReaders W)
    location (w : W) :
  let tr := trace (snd (run_read this location w)) in
  (forall item, In item (dispatched tr) ->
     item = LocationResult location false \/ In item (emits tr)) /\
  (forall c, In c (hook_calls tr) ->
     (exists p, nth_error (processors this) (call_idx c) = Some p /\
                has_hook (call_of c) p = true) /\
     exists item, In item (dispatched tr) /\ called_for this (call_of c) item).
Proof.
  intros tr. subst tr.
  destruct (read_trace this location w) as (_ & _ & _ & L). cbv zeta in *.
  split.
  - intros item Hin.
    destruct (LoopEvents_dispatched L item Hin) as [[<- | []] | H]; auto.
  - intros c Hc.
    destruct (read_trace_rounds this location w) as (tail & E & Ht).
    cbv zeta in *.
    assert (Hc' : In c (hook_calls (flat_map round_events
                    (rounds_of (trace (snd (run_read this location w))))))).
    { remember (rounds_of (trace (snd (run_read this location w)))) as rs.
      rewrite E, hook_calls_app in Hc.
      apply in_app_or in Hc as [Hc | Hc]; auto.
      destruct Ht as [-> | (items & ->)]; destruct Hc. }
    apply (in_proj_flat_map hook_calls round_events) in Hc'
      as (rd & Hrd & Hx); [| apply hook_calls_app | reflexivity].
    change (hook_calls (round_events rd))
      with (hook_calls (round_body rd)) in Hx.
    destruct (read_round this location w rd Hrd) as [_ B].
    destruct (BodyEvents_item_runs B) as (Eb & Em & Hi).
    rewrite Eb in Hx.
    apply (in_proj_flat_map hook_calls run_events) in Hx
      as ([item seg] & Hrun & Hx); [| apply hook_calls_app | reflexivity].
    change (hook_calls (run_events (item, seg))) with (hook_calls seg) in Hx.
    destruct (ItemEvents_called_for _ (Hi _ _ Hrun) Hx) as [Hf Hp].
    split; [exact Hp |].
    exists item. split; [| exact Hf].
    rewrite read_dispatched. apply in_flat_map. exists rd. split; auto.
    rewrite <- Em. now apply (in_map fst) in Hrun.
Qed.

(** *** A location that nobody reads *)

Lemma indexed_In (ps : list (@LocationProcessor W)) i p :
  In (i, p) (indexed ps) -> In p ps.
Proof.
  intros H. apply registered_indexed in H. eapply nth_error_In; eauto.
Qed.

Lemma FirstMatch_declined l o call fault unh
    (chain : list (nat * @LocationProcessor W)) ev :
  FirstMatch (reader_of l o) call fault l unh chain ev ->
  (forall i p f, In (i, p) chain -> readLocation p = Some f -> declines f) ->
  emits ev = [result.inputError l unh].
Proof.
  intros F. induction F as [| i p rest ev Hn F IH | i p rest h w Hs Ho
                           | i p rest h w ev Hs Ho F IH
                           | i p rest h w e ev Hs Ho F IH]; intros Hd.
  - reflexivity.
  - apply IH. intros j q f Hin. apply (Hd j). now right.
  - unfold reader_of in Hs. destruct (readLocation p) as [f |] eqn:Hf;
      [| discriminate]. inversion Hs; subst.
    destruct (Hd i p f (or_introl eq_refl) Hf l o w) as [Hx _].
    rewrite Hx in Ho. discriminate.
  - unfold reader_of in Hs. destruct (readLocation p) as [f |] eqn:Hf;
      [| discriminate]. inversion Hs; subst.
    destruct (Hd i p f (or_introl eq_refl) Hf l o w) as [_ Hx].
    simpl. rewrite emits_app, emits_emits, Hx. simpl.
    apply IH. intros j q g Hin. apply (Hd j). now right.
  - unfold reader_of in Hs. destruct (readLocation p) as [f |] eqn:Hf;
      [| discriminate]. inversion Hs; subst.
    destruct (Hd i p f (or_introl eq_refl) Hf l o w) as [Hx _].
    rewrite Hx in Ho. discriminate.
Qed.

Lemma Notify_quiet l err (chain : list (nat * @LocationProcessor W)) ev :
  Notify l err chain ev ->
  (forall i p h, In (i, p) chain -> handleError p = Some h -> stays_quiet h) ->
  emits ev = [].
Proof.
  intros N. induction N as [| i p rest ev Hn N IH
                           | i p rest h w ev Hs Ho N IH
                           | i p rest h w e ev Hs Ho N IH]; intros Hq.
  - reflexivity.
  - apply IH. intros j q f Hin. apply (Hq j). now right.
  - destruct (Hq i p h (or_introl eq_refl) Hs err l w) as [_ Hx].
    simpl. rewrite emits_app, emits_emits, Hx. simpl.
    apply IH. intros j q g Hin. apply (Hq j). now right.
  - destruct (Hq i p h (or_introl eq_refl) Hs err l w) as [Hx _].
    rewrite Hx in Ho. discriminate.
Qed.

Lemma BodyEvents_one (this : @LocationReaders W) item body :
  BodyEvents this [item] body ->
  exists seg, body = EvItem item :: seg /\ ItemEvents this item seg.
Proof.
  inversion 1 as [| ? ? seg ev I B]; subst.
  inversion B; subst. exists seg. now rewrite app_nil_r.
Qed.

Lemma pushed_entities_none (this : @LocationReaders W) items body :
  BodyEvents this items body ->
  allowed_entities this items = [] ->
  pushed_entities body = [].
Proof.
  intros B H. destruct (BodyEvents_entities B) as [A _].
  rewrite H in A. now apply map_eq_nil in A.
Qed.

(** X2. When every [readLocation] there is declines without emitting and
    every [handleError] there is returns without emitting (in particular
    when no processor has these hooks), [read] returns no entity and exactly
    one error, the unhandled-input error of the input location, after two
    rounds and without a warning. *)
Theorem unread_location_yields_one_error (this : @LocationReaders W)
    location (w : W) :
  (forall p f, In p (processors this) -> readLocation p = Some f ->
     declines f) ->
  (forall p h, In p (processors this) -> handleError p = Some h ->
     stays_quiet h) ->
  let r := run_read this location w in
  fst r
  = Normal {| entities := [];
              errors := [error_entry location
                           {| err_name := "InputError";
                              err_message := msg_unreadable location |}] |} /\
  List.length (rounds_of (trace (snd r))) = 2 /\
  warnings (trace (snd r)) = [].
Proof.
  intros Hd Hq r. subst r.
  destruct (read_trace this location w) as (E & En & Er & L). cbv zeta in *.
  assert (Ho : output (snd (run_read this location w))
               = {| entities := pushed_entities
                                  (trace (snd (run_read this location w)));
                    errors := pushed_errors
                                (trace (snd (run_read this location w))) |}).
  { rewrite <- En, <- Er. now destruct (output _). }
  rewrite E at 1. cbn [fst]. rewrite Ho.
  remember (trace (snd (run_read this location w))) as tr. clear Heqtr E En Er Ho.
  unfold MAX_DEPTH, result.location in L.
  apply LoopEvents_step in L as (body0 & ev1 & B0 & E0 & R0 & L).
  destruct (BodyEvents_clean B0) as (_ & _ & W0 & _ & P0).
  pose proof (pushed_entities_none B0 eq_refl) as Q0.
  assert (Em0 : emits body0
                = [result.inputError location (msg_unreadable location)]).
  { destruct (BodyEvents_one B0) as (seg0 & -> & I0).
    inversion I0 as [? ? ev F | | | |]; subst.
    simpl. apply (FirstMatch_declined F).
    intros i p f Hin. apply Hd. eapply indexed_In; eauto. }
  rewrite Em0 in L.
  destruct L as [[Hn _] | [_ L]]; [discriminate |].
  apply LoopEvents_step in L as (body1 & ev2 & B1 & E1 & R1 & L).
  destruct (BodyEvents_clean B1) as (_ & _ & W1 & _ & P1).
  pose proof (pushed_entities_none B1 eq_refl) as Q1.
  assert (Em1 : emits body1 = []).
  { destruct (BodyEvents_one B1) as (seg1 & -> & I1).
    inversion I1 as [| | | | ? ? ev' N]; subst.
    simpl. rewrite emits_app, (Notify_quiet N); [reflexivity |].
    intros i p h Hin. apply Hq. eapply indexed_In; eauto. }
  destruct L as [[_ ->] | [Hn _]]; [| now rewrite Em1 in Hn].
  rewrite R0, R1. subst tr ev1.
  change (pushed_entities (EvRound ?d ?i :: ?b)) with (pushed_entities b).
  change (pushed_errors (EvRound ?d ?i :: ?b)) with (pushed_errors b).
  change (warnings (EvRound ?d ?i :: ?b)) with (warnings b).
  rewrite !pushed_entities_app, !pushed_errors_app, !warnings_app.
  change (pushed_entities (EvRound ?d ?i :: ?b)) with (pushed_entities b).
  change (pushed_errors (EvRound ?d ?i :: ?b)) with (pushed_errors b).
  change (warnings (EvRound ?d ?i :: ?b)) with (warnings b).
  rewrite !app_nil_r, Q0, Q1, P0, P1, W0, W1. simpl. auto.
Qed.

(** *** From a location to its entities *)

Lemma Pipeline_idle location (chain : list (nat * @LocationProcessor W))
    cur ev fin :
  Pipeline location chain cur ev fin ->
  (forall i p, In (i, p) chain -> processEntity p = None) ->
  ev = [] /\ fin = cur.
Proof.
  intros P. induction P as [cur | i p rest cur ev fin Hn P IH
                           | i p rest cur h w e' ev fin Hs Ho P IH
                           | i p rest cur h w e ev fin Hs Ho P IH]; intros Hi.
  - auto.
  - apply IH. intros j q Hin. apply (Hi j). now right.
  - rewrite (Hi i p (or_introl eq_refl)) in Hs. discriminate.
  - rewrite (Hi i p (or_introl eq_refl)) in Hs. discriminate.
Qed.

(** A pass over entities that no processor transforms emits nothing. *)
Lemma BodyEvents_entities_idle (this : @LocationReaders W) items body :
  BodyEvents this items body ->
  (forall p, In p (processors this) -> processEntity p = None) ->
  (forall item, In item items -> exists l e, item = EntityResult l e) ->
  emits body = [].
Proof.
  intros B Hn. induction B as [| item items seg ev I B IH]; intros Hi; auto.
  simpl. rewrite emits_app, IH by (intros; apply Hi; now right).
  destruct (Hi item (or_introl eq_refl)) as (l & e & ->).
  inversion I as [| | ? ? ev' fin Hallow P | ? ? Hrej |]; subst; auto.
  apply Pipeline_idle in P as [-> _]; auto.
  intros i p Hin. apply Hn. eapply indexed_In; eauto.
Qed.

Lemma allowed_entities_all (this : @LocationReaders W) location ents :
  (forall e, In e ents -> isAllowed (rulesEnforcer this) e location = true) ->
  allowed_entities this (map (EntityResult location) ents)
  = map (fun e => {| ee_entity := e; ee_location := location |}) ents /\
  flat_map (item_errors this) (map (EntityResult location) ents) = [].
Proof.
  induction ents as [| e ents IH]; intros H; [auto |].
  destruct IH as [A B]; [intros; apply H; now right |].
  unfold allowed_entities in *. simpl.
  rewrite (H e (or_introl eq_refl)), A, B. auto.
Qed.

(** X7. The way from a location to its entities: when the first processor
    reads the input location into one [DataResult], the second parses these
    data into entities that the enforcer allows, and neither transforms
    entities, [read] returns exactly these entities, in the order they were
    emitted, each paired with the input location, and no error. *)
Theorem read_parse_record (this : @LocationReaders W) location (w : W)
    reader parser rf pf bytes ents :
  processors this = [reader; parser] ->
  readLocation reader = Some rf ->
  parseData reader = None ->
  processEntity reader = None ->
  parseData parser = Some pf ->
  processEntity parser = None ->
  (forall w', outcome (rf location false w') = inl true /\
              emitted (rf location false w') = [DataResult location bytes]) ->
  (forall w', outcome (pf bytes location w') = inl true /\
              emitted (pf bytes location w')
              = map (EntityResult location) ents) ->
  (forall e, In e ents -> isAllowed (rulesEnforcer this) e location = true) ->
  fst (run_read this location w)
  = Normal {| entities :=
                map (fun e => {| ee_entity := e; ee_location := location |}) ents;
              errors := [] |}.
Proof.
  intros Hp Hrf Hrp Hre Hpf Hpe Hr Hps Hallow.
  destruct (read_trace this location w) as (E & En & Er & L). cbv zeta in *.
  assert (Ho : output (snd (run_read this location w))
               = {| entities := pushed_entities
                                  (trace (snd (run_read this location w)));
                    errors := pushed_errors
                                (trace (snd (run_read this location w))) |}).
  { rewrite <- En, <- Er. now destruct (output _). }
  rewrite E at 1. cbn [fst]. rewrite Ho.
  remember (trace (snd (run_read this location w))) as tr.
  clear Heqtr E En Er Ho.
  assert (Hnone : forall p, In p (processors this) -> processEntity p = None).
  { rewrite Hp. intros p [<- | [<- | []]]; auto. }
  assert (Hcap : capable has_processEntity (processors this) = []).
  { unfold capable, capable_of, indexed. rewrite Hp. simpl.
    unfold has_processEntity. now rewrite Hre, Hpe. }
  destruct (allowed_entities_all this location ents Hallow) as [Ha He].
  unfold MAX_DEPTH, result.location in L.
  (* round 0: the location *)
  apply LoopEvents_step in L as (body0 & ev1 & B0 & E0 & _ & L).
  destruct (BodyEvents_clean B0) as (_ & _ & _ & _ & P0).
  pose proof (pushed_entities_none B0 eq_refl) as Q0.
  assert (Em0 : emits body0 = [DataResult location bytes]).
  { destruct (BodyEvents_one B0) as (seg0 & -> & I0).
    inversion I0 as [? ? ev F | | | |]; subst.
    unfold indexed in F. rewrite Hp in F. simpl in F.
    assert (Hs : reader_of location false reader = Some (rf location false))
      by (unfold reader_of; now rewrite Hrf).
    inversion F as [| ? ? ? ? Hn | ? ? ? h w' Hh Ho | ? ? ? h w' ev' Hh Ho F'
                   | ? ? ? h w' e ev' Hh Ho F']; subst;
      try (rewrite Hs in Hn; discriminate);
      rewrite Hs in Hh; inversion Hh; subst;
      destruct (Hr w') as [Hx Hy]; rewrite Hx in Ho; try discriminate.
    simpl. now rewrite emits_emits. }
  rewrite Em0 in L.
  destruct L as [[Hn _] | [_ L]]; [discriminate |].
  (* round 1: the data *)
  apply LoopEvents_step in L as (body1 & ev2 & B1 & E1 & _ & L).
  destruct (BodyEvents_clean B1) as (_ & _ & _ & _ & P1).
  pose proof (pushed_entities_none B1 eq_refl) as Q1.
  assert (Em1 : emits body1 = map (EntityResult location) ents).
  { destruct (BodyEvents_one B1) as (seg1 & -> & I1).
    inversion I1 as [| ? ? ev F | | |]; subst.
    unfold indexed in F. rewrite Hp in F. simpl in F.
    assert (Hs0 : parser_of bytes location reader = None)
      by (unfold parser_of; now rewrite Hrp).
    assert (Hs1 : parser_of bytes location parser = Some (pf bytes location))
      by (unfold parser_of; now rewrite Hpf).
    inversion F as [| ? ? ? ? Hn F0 | ? ? ? h w' Hh Ho | ? ? ? h w' ev' Hh Ho F'
                   | ? ? ? h w' e ev' Hh Ho F']; subst;
      try (rewrite Hs0 in Hh; discriminate).
    inversion F0 as [| ? ? ? ? Hn' | ? ? ? h w' Hh Ho | ? ? ? h w' ev' Hh Ho F'
                    | ? ? ? h w' e ev' Hh Ho F']; subst;
      try (rewrite Hs1 in Hn'; discriminate);
      rewrite Hs1 in Hh; inversion Hh; subst;
      destruct (Hps w') as [Hx Hy]; rewrite Hx in Ho; try discriminate.
    simpl. now rewrite emits_emits. }
  rewrite Em1 in L. subst tr ev1.
  change (pushed_entities (EvRound ?d ?i :: ?b)) with (pushed_entities b).
  change (pushed_errors (EvRound ?d ?i :: ?b)) with (pushed_errors b).
  rewrite !pushed_entities_app, !pushed_errors_app.
  change (pushed_entities (EvRound ?d ?i :: ?b)) with (pushed_entities b).
  change (pushed_errors (EvRound ?d ?i :: ?b)) with (pushed_errors b).
  rewrite !pushed_entities_app, !pushed_errors_app, Q0, Q1, P0, P1.
  destruct L as [[Hn ->] | [_ L]].
  - apply map_eq_nil in Hn. subst ents. reflexivity.
  - (* round 2: the entities *)
    apply LoopEvents_step in L as (body2 & ev3 & B2 & -> & _ & L).
    destruct (BodyEvents_clean B2) as (_ & _ & _ & _ & P2).
    destruct (BodyEvents_entities B2) as [_ Q2]. specialize (Q2 Hcap).
    assert (Em2 : emits body2 = []).
    { apply (BodyEvents_entities_idle B2 Hnone).
      intros item Hin. apply in_map_iff in Hin as (e & <- & _). eauto. }
    destruct L as [[_ ->] | [Hn _]]; [| now rewrite Em2 in Hn].
    change (pushed_entities (EvRound ?d ?i :: ?b)) with (pushed_entities b).
    change (pushed_errors (EvRound ?d ?i :: ?b)) with (pushed_errors b).
    rewrite !app_nil_r, Q2, P2, Ha, He. reflexivity.
Qed.

(** *** The world of the processors *)

Section Keeps.

Variable P : W -> Prop.

Lemma keeps_ret {A} (a : A) : keeps P (ret a).
Proof. intros st H. exact H. Qed.

Lemma keeps_bind {A B} (m : M A) (k : A -> M B) :
  keeps P m -> (forall a, keeps P (k a)) -> keeps P (bind m k).
Proof.
  intros Hm Hk st H. specialize (Hm st H).
  unfold after, bind in *. destruct (m st) as [[a | e] st1]; simpl in *; auto.
  now apply (Hk a).
Qed.

Lemma keeps_try_catch {A} (m : M A) (h : JsError -> M A) :
  keeps P m -> (forall e, keeps P (h e)) -> keeps P (try_catch m h).
Proof.
  intros Hm Hh st H. specialize (Hm st H).
  unfold after, try_catch in *. destruct (m st) as [[a | e] st1]; simpl in *; auto.
  now apply (Hh e).
Qed.

Lemma keeps_await {A} idx call (out : A -> Outcome) (h : Hook A) :
  hook_keeps P h -> keeps P (await idx call out h).
Proof.
  intros Hh st H. unfold after, await.
  destruct (outcome (h (world st))); simpl; now apply Hh.
Qed.

Lemma keeps_mark ev : keeps P (mark ev).
Proof. intros st H. exact H. Qed.

Lemma keeps_emit i : keeps P (emit i).
Proof. intros st H. exact H. Qed.

Lemma keeps_push_entity e : keeps P (push_entity e).
Proof. intros st H. exact H. Qed.

Lemma keeps_push_error e : keeps P (push_error e).
Proof. intros st H. exact H. Qed.

Create HintDb keeps.
#[local] Hint Resolve keeps_ret keeps_mark keeps_emit keeps_push_entity
  keeps_push_error : keeps.

Lemma keeps_handleLocation_loop (chain : list (nat * @LocationProcessor W))
    location optional :
  (forall i p, In (i, p) chain -> processor_keeps P p) ->
  keeps P (handleLocation_loop chain location optional).
Proof.
  induction chain as [| [idx p] rest IH]; intros Hc; cbn [handleLocation_loop].
  - apply keeps_emit.
  - assert (Hr : keeps P (handleLocation_loop rest location optional))
      by (apply IH; intros i q Hin; apply (Hc i); now right).
    destruct (readLocation p) as [hook |] eqn:Hp; auto.
    destruct (Hc idx p (or_introl eq_refl)) as (K & _).
    apply keeps_bind.
    + apply keeps_try_catch.
      * apply keeps_await. now apply K.
      * intros e. apply keeps_bind; auto with keeps.
    + intros [|]; auto with keeps.
Qed.

Lemma keeps_handleData_loop (chain : list (nat * @LocationProcessor W))
    location data :
  (forall i p, In (i, p) chain -> processor_keeps P p) ->
  keeps P (handleData_loop chain location data).
Proof.
  induction chain as [| [idx p] rest IH]; intros Hc; cbn [handleData_loop].
  - apply keeps_emit.
  - assert (Hr : keeps P (handleData_loop rest location data))
      by (apply IH; intros i q Hin; apply (Hc i); now right).
    destruct (parseData p) as [hook |] eqn:Hp; auto.
    destruct (Hc idx p (or_introl eq_refl)) as (_ & K & _).
    apply keeps_bind.
    + apply keeps_try_catch.
      * apply keeps_await. now apply K.
      * intros e. apply keeps_bind; auto with keeps.
    + intros [|]; auto with keeps.
Qed.

Lemma keeps_handleEntity_loop (chain : list (nat * @LocationProcessor W))
    location current :
  (forall i p, In (i, p) chain -> processor_keeps P p) ->
  keeps P (handleEntity_loop chain location current).
Proof.
  revert current.
  induction chain as [| [idx p] rest IH]; intros current Hc;
    cbn [handleEntity_loop].
  - apply keeps_ret.
  - assert (Hr : forall c, keeps P (handleEntity_loop rest location c))
      by (intros c; apply IH; intros i q Hin; apply (Hc i); now right).
    destruct (processEntity p) as [hook |] eqn:Hp; auto.
    destruct (Hc idx p (or_introl eq_refl)) as (_ & _ & K & _).
    apply keeps_bind; auto.
    apply keeps_try_catch.
    + apply keeps_await. now apply K.
    + intros e. apply keeps_bind; auto with keeps.
Qed.

Lemma keeps_handleError_loop (chain : list (nat * @LocationProcessor W))
    location error :
  (forall i p, In (i, p) chain -> processor_keeps P p) ->
  keeps P (handleError_loop chain location error).
Proof.
  induction chain as [| [idx p] rest IH]; intros Hc; cbn [handleError_loop].
  - apply keeps_ret.
  - assert (Hr : keeps P (handleError_loop rest location error))
      by (apply IH; intros i q Hin; apply (Hc i); now right).
    destruct (handleError p) as [hook |] eqn:Hp; auto.
    destruct (Hc idx p (or_introl eq_refl)) as (_ & _ & _ & K).
    apply keeps_bind; auto.
    apply keeps_try_catch.
    + apply keeps_await. now apply K.
    + intros e. apply keeps_emit.
Qed.

Lemma keeps_process_item (this : @LocationReaders W) item :
  (forall p, In p (processors this) -> processor_keeps P p) ->
  keeps P (process_item this item).
Proof.
  intros Hp.
  assert (Hc : forall i p, In (i, p) (indexed (processors this)) ->
                 processor_keeps P p)
    by (intros i p Hin; apply Hp; eapply indexed_In; eauto).
  unfold process_item. apply keeps_bind; [apply keeps_mark | intros _].
  destruct item as [l o | l d | l e | l e].
  - apply keeps_bind; [apply keeps_mark | intros _].
    now apply keeps_handleLocation_loop.
  - apply keeps_bind; [apply keeps_mark | intros _].
    now apply keeps_handleData_loop.
  - destruct (isAllowed (rulesEnforcer this) e l); [| apply keeps_push_error].
    apply keeps_bind; [| intros; apply keeps_push_entity].
    apply keeps_bind; [apply keeps_mark | intros _].
    now apply keeps_handleEntity_loop.
  - apply keeps_bind; [| intros; apply keeps_push_error].
    apply keeps_bind; [apply keeps_mark | intros _].
    now apply keeps_handleError_loop.
Qed.

Lemma keeps_for_each (this : @LocationReaders W) items :
  (forall p, In p (processors this) -> processor_keeps P p) ->
  keeps P (for_each this items).
Proof.
  intros Hp. induction items as [| item items IH]; cbn [for_each].
  - apply keeps_ret.
  - apply keeps_bind; auto. now apply keeps_process_item.
Qed.

Lemma keeps_read_loop (this : @LocationReaders W) location remaining depth
    items :
  (forall p, In p (processors this) -> processor_keeps P p) ->
  keeps P (read_loop this location remaining depth items).
Proof.
  intros Hp. revert depth items.
  induction remaining as [| remaining IH]; intros depth items;
    cbn [read_loop].
  - apply keeps_bind; [apply keeps_mark | intros _].
    apply keeps_bind; [apply keeps_mark | intros _].
    apply keeps_bind; [apply keeps_push_error | intros _].
    intros st H. exact H.
  - apply keeps_bind; [intros st H; exact H | intros _].
    apply keeps_bind; [apply keeps_mark | intros _].
    apply keeps_bind; [now apply keeps_for_each | intros _].
    apply keeps_bind; [intros st H; exact H | intros newItems].
    destruct (Nat.eqb (List.length newItems) 0); auto.
    intros st H. exact H.
Qed.

End Keeps.


(** *** The work items *)

Lemma LoopEvents_conserves (this : @LocationReaders W) location r d items ev :
  LoopEvents this location r d items ev ->
  items ++ emits ev = dispatched ev ++ List.concat (discarded ev).
Proof.
  revert d items ev. induction r as [| r IH]; intros d items ev L.
  - apply LoopEvents_limit in L. subst ev. simpl. reflexivity.
  - apply LoopEvents_step in L
      as (body & ev' & B & -> & _ & [[E ->] | [E L]]);
      destruct (BodyEvents_clean B) as (_ & D & _ & Dc & _).
    + rewrite app_nil_r.
      change (emits (EvRound d items :: body)) with (emits body).
      change (dispatched (EvRound d items :: body)) with (dispatched body).
      change (discarded (EvRound d items :: body)) with (discarded body).
      rewrite E, D, Dc. reflexivity.
    + change (emits (EvRound d items :: body ++ ev'))
        with (emits (body ++ ev')).
      change (dispatched (EvRound d items :: body ++ ev'))
        with (dispatched (body ++ ev')).
      change (discarded (EvRound d items :: body ++ ev'))
        with (discarded (body ++ ev')).
      rewrite emits_app, dispatched_app, discarded_app, D, Dc.
      simpl. rewrite <- app_assoc. f_equal. exact (IH _ _ _ L).
Qed.

(** X10. No work item is lost or made up: the input location followed by
    everything that was emitted during a [read], in emission order, is what
    was dispatched, in dispatch order, followed by what the bound dropped.
    Every emitted item is thus dispatched exactly once, in the round after
    its emission, unless the bound drops it. *)
Theorem work_items_are_conserved (this : @LocationReaders W) location (w : W) :
  let tr := trace (snd (run_read this location w)) in
  LocationResult location false :: emits tr
  = dispatched tr ++ List.concat (discarded tr).
Proof.
  intros tr. subst tr.
  destruct (read_trace this location w) as (_ & _ & _ & L). cbv zeta in *.
  exact (LoopEvents_conserves L).
Qed.

(** *** Errors of the error hooks *)

Lemma In_indexed_from k (l : list (@LocationProcessor W)) i p :
  nth_error l i = Some p -> In (k + i, p) (combine (seq k (List.length l)) l).
Proof.
  revert k i. induction l as [| q l IH]; intros k [| i] H; simpl in *;
    try discriminate.
  - inversion H; subst. left. f_equal. lia.
  - right. replace (k + S i) with (S k + i) by lia. now apply IH.
Qed.

Lemma In_indexed (ps : list (@LocationProcessor W)) p :
  In p ps -> exists i, In (i, p) (indexed ps).
Proof.
  intros H. apply In_nth_error in H as [i H].
  exists i. apply (In_indexed_from 0 ps i H).
Qed.

Lemma Notify_throwing l err (chain : list (nat * @LocationProcessor W)) ev
    i p h :
  Notify l err chain ev ->
  In (i, p) chain -> handleError p = Some h -> always_throws h ->
  exists m, In (result.generalError l m) (emits ev).
Proof.
  intros N Hin Hh Ht.
  induction N as [| j q rest ev Hn N IH
                 | j q rest g w ev Hs Ho N IH
                 | j q rest g w e ev Hs Ho N IH].
  - destruct Hin.
  - destruct Hin as [Eq | Hin]; [inversion Eq; subst; congruence | auto].
  - destruct Hin as [Eq | Hin].
    + inversion Eq; subst. rewrite Hh in Hs. inversion Hs; subst.
      destruct (Ht err l w) as [x Hx]. rewrite Hx in Ho. discriminate.
    + destruct (IH Hin) as [m Hm]. exists m. simpl.
      rewrite emits_app. apply in_or_app. now right.
  - eexists. simpl. rewrite emits_app. apply in_or_app. right.
    left. reflexivity.
Qed.

Lemma BodyEvents_error_feeds (this : @LocationReaders W) p h items body :
  In p (processors this) -> handleError p = Some h -> always_throws h ->
  BodyEvents this items body ->
  (exists l e, In (ErrorResult l e) items) ->
  exists l e, In (ErrorResult l e) (emits body).
Proof.
  intros Hp Hh Ht B.
  induction B as [| item items seg ev I B IH]; intros (l & e & Hin);
    [destruct Hin |].
  simpl. rewrite emits_app.
  destruct Hin as [-> | Hin].
  - inversion I as [| | | | ? ? ev' N]; subst.
    destruct (In_indexed _ _ Hp) as [i Hi].
    destruct (@Notify_throwing l e _ _ i p h N Hi Hh Ht) as [m Hm].
    unfold result.generalError in Hm.
    eexists _, _. apply in_or_app. left.
    simpl. rewrite emits_app. apply in_or_app. left. exact Hm.
  - destruct IH as (l' & e' & H); eauto.
    exists l', e'. apply in_or_app. now right.
Qed.

Lemma LoopEvents_error_pending (this : @LocationReaders W) p h location
    r d items ev :
  In p (processors this) -> handleError p = Some h -> always_throws h ->
  LoopEvents this location r d items ev ->
  (exists l e, In (ErrorResult l e) items) ->
  discarded ev <> [].
Proof.
  intros Hp Hh Ht. revert d items ev.
  induction r as [| r IH]; intros d items ev L Hin.
  - apply LoopEvents_limit in L. subst ev. discriminate.
  - apply LoopEvents_step in L
      as (body & ev' & B & -> & _ & [[E ->] | [E L]]).
    + destruct (@BodyEvents_error_feeds this p h _ _ Hp Hh Ht B Hin)
        as (l & e & H).
      rewrite E in H. destruct H.
    + destruct (BodyEvents_clean B) as (_ & _ & _ & Dc & _).
      change (discarded (EvRound d items :: body ++ ev'))
        with (discarded (body ++ ev')).
      rewrite discarded_app, Dc. simpl.
      apply (IH _ _ _ L). eapply BodyEvents_error_feeds; eauto.
Qed.

Lemma LoopEvents_error_dispatched (this : @LocationReaders W) p h location
    r d items ev :
  In p (processors this) -> handleError p = Some h -> always_throws h ->
  LoopEvents this location r d items ev ->
  (exists l e, In (ErrorResult l e) (dispatched ev)) ->
  discarded ev <> [].
Proof.
  intros Hp Hh Ht. revert d items ev.
  induction r as [| r IH]; intros d items ev L (l & e & Hin).
  - apply LoopEvents_limit in L. subst ev. discriminate.
  - pose proof L as L0.
    apply LoopEvents_step in L
      as (body & ev' & B & -> & _ & [[E ->] | [E L]]);
      destruct (BodyEvents_clean B) as (_ & D & _ & Dc & _).
    + eapply LoopEvents_error_pending; eauto.
      rewrite app_nil_r in Hin.
      change (dispatched (EvRound d items :: body)) with (dispatched body)
        in Hin.
      rewrite D in Hin. eauto.
    + change (dispatched (EvRound d items :: body ++ ev'))
        with (dispatched (body ++ ev')) in Hin.
      rewrite dispatched_app, D in Hin.
      apply in_app_or in Hin as [Hin | Hin].
      * eapply LoopEvents_error_pending; eauto.
      * change (discarded (EvRound d items :: body ++ ev'))
          with (discarded (body ++ ev')).
        rewrite discarded_app, Dc. simpl.
        apply (IH _ _ _ L). eauto.
Qed.


End Further.

(* ================================================================== *)
(** ** The further properties on runs *)

Section FurtherRuns.

Import Examples.
Import Fixtures.


(** X2 on a chain whose only reader declines and whose only error listener
    does nothing. *)
Lemma X2_witness :
  let eng := engine [Bystander; Tagger "Owner" "owner"] in
  let r := run_read eng (file "a") tt in
  fst r
  = Normal {| entities := [];
              errors := [error_entry (file "a")
                           {| err_name := "InputError";
                              err_message := msg_unreadable (file "a") |}] |} /\
  List.length (rounds_of (trace (snd r))) = 2 /\
  warnings (trace (snd r)) = [].
Proof.
  intros eng r.
  assert (H1 : forall p f, In p (processors eng) ->
                 readLocation p = Some f -> declines f).
  { intros p f [<- | [<- | []]] H; simpl in H; [| discriminate H].
    inversion H; subst. intros l o w. split; reflexivity. }
  assert (H2 : forall p h, In p (processors eng) ->
                 handleError p = Some h -> stays_quiet h).
  { intros p h [<- | [<- | []]] H; simpl in H; [| discriminate H].
    inversion H; subst. intros e l w. split; reflexivity. }
  exact (@unread_location_yields_one_error unit eng (file "a") tt H1 H2).
Defined.

(** X3 on a chain without transforms, reading a component and a user. *)
Lemma X3_witness :
  let eng := engine [Reader] in
  let r := run_read eng (file "a") tt in
  capable has_processEntity (processors eng) = [] /\
  entities (output (snd r))
  = [{| ee_entity := component "v1"; ee_location := file "a" |}].
Proof.
  intros eng r.
  assert (H : capable has_processEntity (processors eng) = [])
    by reflexivity.
  destruct (output_entities_pass_the_gate eng (file "a") tt) as (_ & _ & C).
  split; [exact H |].
  exact (eq_trans (C H) eq_refl).
Defined.

(** X5 on a reader followed by a transform. *)
Lemma X5_witness :
  let eng := engine [Reader; Tagger "Owner" "owner"] in
  let tr := trace (snd (run_read eng (file "a") tt)) in
  List.length (hook_calls tr) = 2 /\
  Forall (fun c => exists item,
            In item (dispatched tr) /\ called_for eng (call_of c) item)
         (hook_calls tr).
Proof.
  intros eng tr.
  destruct (hooks_see_only_dispatched_work eng (file "a") tt) as (_ & C).
  split; [reflexivity |].
  apply Forall_forall. intros c Hc. exact (proj2 (C c Hc)).
Defined.

(** X6 on an entity and a pipeline of three, the second of which throws. *)
Lemma X6_witness :
  let eng := engine [Tagger "Owner" "owner"; Faulty; Tagger "Team" "team"] in
  let item := EntityResult (file "a") (component "v1") in
  let calls := hook_calls (events (process_item eng item) start) in
  List.length calls = 3 /\
  NoDup (map call_idx calls) /\
  Forall (fun c => In (call_idx c) (item_capable eng item)) calls.
Proof.
  intros eng item calls.
  destruct (item_calls_each_processor_once eng item start) as (N & _ & A).
  split; [reflexivity | split; [exact N |]].
  apply Forall_forall. intros c Hc. exact (proj2 (A c Hc)).
Defined.

(** X7 on a reader of bytes and a parser of two components. *)
Lemma X7_witness :
  fst (run_read (engine [FileReader; Parser]) (file "a") tt)
  = Normal {| entities :=
                [{| ee_entity := component "v1"; ee_location := file "a" |};
                 {| ee_entity := component "v2"; ee_location := file "a" |}];
              errors := [] |}.
Proof.
  assert (H1 : processors (engine [FileReader; Parser]) = [FileReader; Parser])
    by reflexivity.
  assert (H2 : readLocation FileReader = Some read_bytes) by reflexivity.
  assert (H3 : parseData FileReader = None) by reflexivity.
  assert (H4 : processEntity FileReader = None) by reflexivity.
  assert (H5 : parseData Parser = Some parse) by reflexivity.
  assert (H6 : processEntity Parser = None) by reflexivity.
  assert (H7 : forall w' : unit,
            outcome (read_bytes (file "a") false w') = inl true /\
            emitted (read_bytes (file "a") false w')
            = [DataResult (file "a") payload])
    by (intros w'; split; reflexivity).
  assert (H8 : forall w' : unit,
            outcome (parse payload (file "a") w') = inl true /\
            emitted (parse payload (file "a") w')
            = map (EntityResult (file "a")) documents)
    by (intros w'; split; reflexivity).
  assert (H9 : forall e, In e documents ->
            isAllowed (rulesEnforcer (engine [FileReader; Parser])) e
              (file "a") = true)
    by (intros e [<- | [<- | []]]; reflexivity).
  exact (@read_parse_record unit (engine [FileReader; Parser]) (file "a") tt
           FileReader Parser read_bytes parse payload documents
           H1 H2 H3 H4 H5 H6 H7 H8 H9).
Defined.



End FurtherRuns.
